(** * arknights-guess: the operator scraper [src/fetchOperators.js]

    A shallow embedding of the extraction pipeline (listing crawler,
    field extractor, page parser, orchestrator) and the properties of
    its output collection.

    Conventions.
    - A JavaScript string is the list of its UTF-16 code units.
    - A parsed page is the tree cheerio works on: text nodes and
      elements with a tag name, attributes and child nodes.  Comments
      and directives carry no text and match no selector, so they are
      left out of the tree.
    - Everything the script obtains from its runtime and its libraries
      (the HTTP client, the HTML parser, [String.prototype.toLowerCase],
      [String.prototype.localeCompare], [URL]) is a field of the
      [Platform] class.
    - A Number is the double of a natural number or [Infinity]; the
      file that is written is the JSON value [JSON.stringify] denotes.
    - [console.error] is modelled as a list of entries; the progress
      lines written with [console.log] and the politeness delays do not
      influence any value and are not part of the model. *)

From Stdlib Require Import List NArith ZArith Bool Lia.
From Stdlib Require String Ascii.
Import String.StringSyntax.
Delimit Scope string_scope with string.
Bind Scope string_scope with String.string.
From Stdlib Require Import Sorted Permutation.
Import ListNotations.

Set Implicit Arguments.

(* ================================================================== *)
(** ** JavaScript strings                                              *)
(* ================================================================== *)

Module JsString.

(** UTF-16 code units. *)
Definition t := list N.

(** An ASCII literal as a JavaScript string. *)
Definition lit (s : String.string) : t :=
  map Ascii.N_of_ascii (String.list_ascii_of_string s).

Fixpoint eqb (a b : t) : bool :=
  match a, b with
  | [], [] => true
  | x :: a', y :: b' => N.eqb x y && eqb a' b'
  | _, _ => false
  end.

(** [s.length] truthiness: a string is truthy when it is not empty. *)
Definition nonempty (s : t) : bool :=
  match s with [] => false | _ :: _ => true end.

(** [s.startsWith(p)] *)
Fixpoint startsWith (p s : t) : bool :=
  match p, s with
  | [], _ => true
  | x :: p', y :: s' => N.eqb x y && startsWith p' s'
  | _ :: _, [] => false
  end.

(** [s.includes(p)] *)
Fixpoint includes (p s : t) : bool :=
  startsWith p s ||
  match s with
  | [] => false
  | _ :: s' => includes p s'
  end.

(** [s.endsWith(p)] *)
Definition endsWith (p s : t) : bool := startsWith (rev p) (rev s).

(** WhiteSpace and LineTerminator code points of ECMAScript; the
    same set is matched by the regular expression class [\s]. *)
Definition isWhiteSpace (c : N) : bool :=
  ((9 <=? c) && (c <=? 13) || (c =? 32) || (c =? 160) || (c =? 5760)
   || (8192 <=? c) && (c <=? 8202) || (c =? 8232) || (c =? 8233)
   || (c =? 8239) || (c =? 8287) || (c =? 12288) || (c =? 65279))%N.

Fixpoint trimStart (s : t) : t :=
  match s with
  | [] => []
  | c :: s' => if isWhiteSpace c then trimStart s' else s
  end.

Definition trimEnd (s : t) : t := rev (trimStart (rev s)).

(** [s.trim()] *)
Definition trim (s : t) : t := trimEnd (trimStart s).

(** [s.replace(/\s+/g, " ")]: every maximal run of white space
    becomes one space.  [inRun] tells that the previous code unit
    was white space, already replaced. *)
Fixpoint collapseFrom (inRun : bool) (s : t) : t :=
  match s with
  | [] => []
  | c :: s' =>
      if isWhiteSpace c
      then (if inRun then collapseFrom true s'
            else 32%N :: collapseFrom true s')
      else c :: collapseFrom false s'
  end.

Definition collapseSpaces (s : t) : t := collapseFrom false s.

(** [s.replace(p, "")] with a string pattern: the first occurrence
    of [p] is removed; without an occurrence [s] is unchanged. *)
Fixpoint removeFirst (p s : t) : t :=
  if startsWith p s then skipn (length p) s
  else match s with
       | [] => []
       | c :: s' => c :: removeFirst p s'
       end.

(** The class [\d]. *)
Definition isDigit (c : N) : bool := ((48 <=? c) && (c <=? 57))%N.

(** [n] digits at the head of [s]: the prefix matched by [\d{n}]. *)
Fixpoint digitsPrefix (n : nat) (s : t) : option t :=
  match n with
  | O => Some []
  | S n' =>
      match s with
      | c :: s' =>
          if isDigit c
          then option_map (cons c) (digitsPrefix n' s')
          else None
      | [] => None
      end
  end.

(** [s.match(/\d{4}/)]: the leftmost four consecutive digits. *)
Fixpoint matchYear (s : t) : option t :=
  match digitsPrefix 4 s with
  | Some y => Some y
  | None => match s with
            | [] => None
            | _ :: s' => matchYear s'
            end
  end.

(** The prefix of [s] matched by [\d{4}-\d{2}-\d{2}], if any. *)
Definition isoPrefix (s : t) : option t :=
  match digitsPrefix 4 s with
  | Some y =>
      match skipn 4 s with
      | 45%N :: s1 =>
          match digitsPrefix 2 s1 with
          | Some m =>
              match skipn 2 s1 with
              | 45%N :: s2 =>
                  match digitsPrefix 2 s2 with
                  | Some d => Some (y ++ 45%N :: m ++ 45%N :: d)
                  | None => None
                  end
              | _ => None
              end
          | None => None
          end
      | _ => None
      end
  | None => None
  end.

(** [s.match(/\d{4}-\d{2}-\d{2}/)]: the leftmost match. *)
Fixpoint matchIso (s : t) : option t :=
  match isoPrefix s with
  | Some d => Some d
  | None => match s with
            | [] => None
            | _ :: s' => matchIso s'
            end
  end.

(** The longest run of digits at the head of [s]. *)
Fixpoint takeDigits (s : t) : t :=
  match s with
  | c :: s' => if isDigit c then c :: takeDigits s' else []
  | [] => []
  end.

(** [s.match(/\d+/)]: the leftmost, longest run of digits. *)
Fixpoint matchDigits (s : t) : option t :=
  match s with
  | [] => None
  | c :: s' => if isDigit c then Some (takeDigits s) else matchDigits s'
  end.

(** The mathematical value of a run of decimal digits. *)
Definition decimalValue (ds : t) : N :=
  fold_left (fun acc c => (10 * acc + (c - 48))%N) ds 0%N.

(** U+2605 BLACK STAR, one code unit. *)
Definition star : N := 9733%N.

(** [(s.match(/\u2605/g) || []).length] *)
Definition countStars (s : t) : nat := length (filter (N.eqb star) s).

(** [/[A-Za-z\u00C0-\u024F]/.test(s)] *)
Definition isLatin (c : N) : bool :=
  ((65 <=? c) && (c <=? 90) || (97 <=? c) && (c <=? 122)
   || (192 <=? c) && (c <=? 591))%N.

Definition hasLatin (s : t) : bool := existsb isLatin s.

(** Code-unit order, the order of [Array.prototype.sort] without a
    comparison function: [true] when [a] sorts before or with [b]. *)
Fixpoint leb (a b : t) : bool :=
  match a, b with
  | [], _ => true
  | _ :: _, [] => false
  | x :: a', y :: b' =>
      if (x <? y)%N then true
      else if (y <? x)%N then false
      else leb a' b'
  end.

(** Splitting an attribute value at white space: the tokens of a
    [class] attribute, which a class selector compares with. *)
Fixpoint tokensFrom (cur : t) (s : t) : list t :=
  match s with
  | [] => match cur with [] => [] | _ => [rev cur] end
  | c :: s' =>
      if isWhiteSpace c
      then match cur with
           | [] => tokensFrom [] s'
           | _ => rev cur :: tokensFrom [] s'
           end
      else tokensFrom (c :: cur) s'
  end.

Definition tokens (s : t) : list t := tokensFrom [] s.

End JsString.

Definition jsstring := JsString.t.
Notation "'js' s" := (JsString.lit s%string) (at level 5, s at level 0).


(* ================================================================== *)
(** ** JavaScript values and exceptions                                *)
(* ================================================================== *)

(** The Number values the script can hold: it produces numbers by
    counting matches and by [Number] applied to a run of digits, so a
    number is the double of a natural number, or [Infinity]. *)
Inductive number :=
| Finite (n : N)
| Infinity.

Definition number_eqb (x y : number) : bool :=
  match x, y with
  | Finite n, Finite m => N.eqb n m
  | Infinity, Infinity => true
  | _, _ => false
  end.

(** The Number value for the natural number [n]: the nearest double,
    ties to the even significand of 53 bits; from 2^1024 on the
    rounded value is [Infinity]. *)
Definition nearestDouble (n : N) : number :=
  let bits := N.size n in
  if (bits <=? 53)%N then Finite n
  else
    let e := (bits - 53)%N in
    let q := N.shiftr n e in
    let r := (n - N.shiftl q e)%N in
    let half := N.shiftl 1 (e - 1) in
    let q' := if (half <? r)%N || ((r =? half)%N && N.odd q)
              then (q + 1)%N else q in
    let m := N.shiftl q' e in
    if (2 ^ 1024 <=? m)%N then Infinity else Finite m.

(** The values that variables and record fields of the script can
    hold. *)
Inductive jsval :=
| JUndefined
| JNull
| JString (s : jsstring)
| JNumber (x : number).

Definition truthy (v : jsval) : bool :=
  match v with
  | JUndefined | JNull => false
  | JString s => JsString.nonempty s
  | JNumber x => negb (number_eqb x (Finite 0))
  end.

(** [a || b] *)
Definition jsor (a b : jsval) : jsval := if truthy a then a else b.

(** [a || b] on two strings. *)
Definition orElse (a b : jsstring) : jsstring :=
  if JsString.nonempty a then a else b.

Definition jsval_eqb (a b : jsval) : bool :=
  match a, b with
  | JUndefined, JUndefined => true
  | JNull, JNull => true
  | JString x, JString y => JsString.eqb x y
  | JNumber x, JNumber y => number_eqb x y
  | _, _ => false
  end.

Definition isString (v : jsval) : Prop := exists s, v = JString s.
Definition isNumber (v : jsval) : Prop := exists x, v = JNumber x.

(** The result of a call that may throw; [message] is [err.message]. *)
Inductive outcome (A : Type) :=
| Returned (a : A)
| Thrown (message : jsstring).
Arguments Thrown {A} message.

(* ================================================================== *)
(** ** Parsed pages and the cheerio queries the script uses            *)
(* ================================================================== *)

Module Dom.

#[local] Set Warnings "-register-all".

Inductive node :=
| Text (data : jsstring)
| Elem (tag : jsstring) (attribs : list (jsstring * jsstring))
       (children : list node).

(** The children of the document root. *)
Definition document := list node.

Definition isElem (n : node) : bool :=
  match n with Elem _ _ _ => true | Text _ => false end.

Definition tagName (n : node) : jsstring :=
  match n with Elem t _ _ => t | Text _ => [] end.

Definition childNodes (n : node) : list node :=
  match n with Elem _ _ ks => ks | Text _ => [] end.

Fixpoint lookup (a : jsstring) (l : list (jsstring * jsstring))
  : option jsstring :=
  match l with
  | [] => None
  | (k, v) :: l' => if JsString.eqb k a then Some v else lookup a l'
  end.

(** The attribute [a] of a node; [None] is [undefined]. *)
Definition attribute (a : jsstring) (n : node) : option jsstring :=
  match n with Elem _ at_ _ => lookup a at_ | Text _ => None end.

(** The concatenated text of a node and its descendants. *)
Fixpoint textContent (n : node) : jsstring :=
  match n with
  | Text s => s
  | Elem _ _ ks => flat_map textContent ks
  end.

(** An element as a query sees it: the element, its ancestors
    (closest first) and its next sibling element. *)
Record element := mkElement {
  self : node;
  ancestors : list node;
  nextSibling : option node
}.

Fixpoint nextElement (l : list node) : option node :=
  match l with
  | [] => None
  | n :: l' => if isElem n then Some n else nextElement l'
  end.

(** The elements of a subtree in document order. *)
Fixpoint subtree (anc : list node) (nxt : option node) (n : node)
  : list element :=
  match n with
  | Text _ => []
  | Elem _ _ ks =>
      mkElement n anc nxt ::
      (fix forest (l : list node) : list element :=
         match l with
         | [] => []
         | k :: l' => subtree (n :: anc) (nextElement l') k ++ forest l'
         end) ks
  end.

Fixpoint forest (anc : list node) (l : list node) : list element :=
  match l with
  | [] => []
  | k :: l' => subtree anc (nextElement l') k ++ forest anc l'
  end.

(** A cheerio selection: elements in document order. *)
Definition selection := list element.

(** [$(selector)]: the elements of the page that match. *)
Definition select (p : element -> bool) (doc : document) : selection :=
  filter p (forest [] doc).

Definition descendants (e : element) : selection :=
  forest (self e :: ancestors e) (childNodes (self e)).

(** [sel.find(selector)]; the script calls it on selections of at
    most one element. *)
Definition find (p : element -> bool) (s : selection) : selection :=
  flat_map (fun e => filter p (descendants e)) s.

(** [sel.first()] *)
Definition first (s : selection) : selection := firstn 1 s.

(** [sel.length] as a condition. *)
Definition nonempty {A : Type} (s : list A) : bool :=
  match s with [] => false | _ :: _ => true end.

(** [sel.text()] *)
Definition text (s : selection) : jsstring :=
  flat_map (fun e => textContent (self e)) s.

(** [sel.next()] and [sel.next(selector)]: the next sibling element
    of each element, kept when it matches. *)
Definition next (p : node -> bool) (s : selection) : list node :=
  flat_map (fun e => match nextSibling e with
                     | Some n => if p n then [n] else []
                     | None => []
                     end) s.

(** [.text()] of the result of [next]. *)
Definition textOf (l : list node) : jsstring := flat_map textContent l.

(** [sel.attr(a)]: the attribute of the first element. *)
Definition attr (a : jsstring) (s : selection) : jsval :=
  match s with
  | [] => JUndefined
  | e :: _ => match attribute a (self e) with
              | Some v => JString v
              | None => JUndefined
              end
  end.

(** [$(el).children().length === 0] *)
Definition isLeaf (e : element) : bool :=
  negb (existsb isElem (childNodes (self e))).

(** *** Selectors *)

Definition anyNode (n : node) : bool := true.

(** [.c] *)
Definition hasClass (c : jsstring) (n : node) : bool :=
  match attribute (js "class") n with
  | Some v => existsb (JsString.eqb c) (JsString.tokens v)
  | None => false
  end.

(** [t] *)
Definition hasTag (t : jsstring) (n : node) : bool :=
  isElem n && JsString.eqb t (tagName n).

(** [#i] *)
Definition hasId (i : jsstring) (n : node) : bool :=
  match attribute (js "id") n with
  | Some v => JsString.eqb v i
  | None => false
  end.

(** [[a="v"]] *)
Definition attrIs (a v : jsstring) (n : node) : bool :=
  match attribute a n with
  | Some w => JsString.eqb w v
  | None => false
  end.

(** [[a^='v']] *)
Definition attrStartsWith (a v : jsstring) (n : node) : bool :=
  match attribute a n with
  | Some w => JsString.nonempty v && JsString.startsWith v w
  | None => false
  end.

(** [:contains("t")] *)
Definition containsText (t : jsstring) (n : node) : bool :=
  JsString.includes t (textContent n).

(** A compound selector on the element itself. *)
Definition on (p : node -> bool) : element -> bool := fun e => p (self e).

(** The descendant combinator: [outer] lists the compound selectors
    to the left of the last one, innermost first. *)
Fixpoint under (anc : list node) (outer : list (node -> bool)) : bool :=
  match outer with
  | [] => true
  | p :: outer' =>
      match anc with
      | [] => false
      | a :: anc' => (p a && under anc' outer') || under anc' outer
      end
  end.

Definition inside (outer : list (node -> bool)) (p : node -> bool)
  : element -> bool :=
  fun e => p (self e) && under (ancestors e) outer.

End Dom.

Import Dom.

(* ================================================================== *)
(** ** The runtime and the libraries                                   *)
(* ================================================================== *)

(** What the script takes from outside.
    - [axios_get url] is [(await axios.get(url, ...)).data], or the
      error the request is rejected with;
    - [cheerio_load] is [cheerio.load], which throws when the body it
      is given is not markup (a response that axios has parsed to
      [null], for one);
    - [toLowerCase] and [localeCompare] are the methods of
      [String.prototype];
    - [URL_href h] is [new URL(h, "https://arknights.wiki.gg").href]. *)
Class Platform := {
  html : Type;
  axios_get : jsstring -> outcome html;
  cheerio_load : html -> outcome document;
  toLowerCase : jsstring -> jsstring;
  localeCompare : jsstring -> jsstring -> Z;
  URL_href : jsstring -> jsstring
}.

(** [localeCompare] is a consistent comparison function: the sign of
    the result flips with the arguments, and the order is transitive. *)
Class ConsistentCollation (P : Platform) : Prop := {
  collation_total : forall x y,
    (localeCompare x y <= 0)%Z \/ (localeCompare y x <= 0)%Z;
  collation_trans : forall x y z,
    (localeCompare x y <= 0)%Z -> (localeCompare y z <= 0)%Z ->
    (localeCompare x z <= 0)%Z
}.

(** What [new URL(h, "https://arknights.wiki.gg").href] is for a
    root-relative [h]: the origin followed by the path, query and
    fragment of [h], dot segments resolved and unsafe code points
    percent-encoded; neither step produces a colon. *)
Definition siteRoot : jsstring := js "https://arknights.wiki.gg".

Definition colon : jsstring := js ":".

Class RootRelativeUrls (P : Platform) : Prop := {
  URL_href_root_relative : forall h,
    JsString.startsWith (js "/wiki/") h = true ->
    exists rest,
      URL_href h = siteRoot ++ rest /\
      JsString.startsWith (js "/") rest = true /\
      (JsString.includes colon h = false ->
       JsString.includes colon rest = false)
}.

(** Entries of [console.error]. *)
Inductive consoleEntry :=
| ConsoleError (args : list jsstring).

(* ================================================================== *)
(** ** fetchHtml, textMatches, extractField                            *)
(* ================================================================== *)

Definition fetchHtml `{Platform} (url : jsstring) : outcome html :=
  axios_get url.

Definition textMatches `{Platform} (a b : jsstring) : bool :=
  if negb (JsString.nonempty a) then false
  else JsString.includes (toLowerCase b) (toLowerCase (JsString.trim a)).

(** [x.trim().toLowerCase() === label.toLowerCase()] *)
Definition sameLabel `{Platform} (x label : jsstring) : bool :=
  JsString.eqb (toLowerCase (JsString.trim x)) (toLowerCase label).

(** The four attempts of [extractField], in the order of the source.
    Each one is [Some v] when the function returns [v] there and
    [None] when control falls through to the next attempt. *)

(** 1) [.pi-data] with a [.pi-data-label] and a [.pi-data-value]. *)

(** The callback of the first [filter]. *)
Definition labelled `{Platform} (label : jsstring) (el : element) : bool :=
  let lbl := text (find (on (hasClass (js "pi-data-label"))) [el]) in
  JsString.nonempty lbl && sameLabel lbl label.

Definition strategy1 `{Platform} (doc : document) (label : jsstring)
  : option jsstring :=
  let pi :=
    first (filter (labelled label) (select (on (hasClass (js "pi-data"))) doc)) in
  if nonempty pi then
    let val := JsString.trim (text (find (on (hasClass (js "pi-data-value"))) pi)) in
    if JsString.nonempty val then Some val else None
  else None.

(** 2) a [.pi-data-label] followed by a [.pi-data-value]. *)
Definition strategy2 `{Platform} (doc : document) (label : jsstring)
  : option jsstring :=
  let pi2 :=
    first (filter (fun el => sameLabel (text [el]) label)
             (select (on (hasClass (js "pi-data-label"))) doc)) in
  if nonempty pi2 then
    let val := JsString.trim (textOf (next (hasClass (js "pi-data-value")) pi2)) in
    if JsString.nonempty val then Some val else None
  else None.

(** 3) a [th] that contains the label, followed by a [td]. *)
Definition strategy3 `{Platform} (doc : document) (label : jsstring)
  : option jsstring :=
  let th :=
    first (filter (fun el => textMatches (text [el]) label)
             (select (on (hasTag (js "th"))) doc)) in
  if nonempty th then
    let td := next (hasTag (js "td")) th in
    if nonempty td then
      let txt := JsString.trim (textOf td) in
      if JsString.nonempty txt then Some txt else None
    else None
  else None.

(** 4) any childless element whose text is the label, followed by a
    sibling.  The label is inserted in the selector [*:contains("...")]
    between double quotes; it is one of the constants of
    [parseOperatorPage], free of quotes and backslashes. *)
Definition strategy4 `{Platform} (doc : document) (label : jsstring)
  : option jsstring :=
  let candidate :=
    first (filter (fun el => isLeaf el && sameLabel (text [el]) label)
             (select (on (containsText label)) doc)) in
  if nonempty candidate then
    let sib := next anyNode candidate in
    if nonempty sib then
      let t := JsString.trim (textOf sib) in
      if JsString.nonempty t then Some t else None
    else None
  else None.

Definition extractField `{Platform} (doc : document) (label : jsstring)
  : jsstring :=
  match strategy1 doc label with
  | Some val => val
  | None =>
      match strategy2 doc label with
      | Some val => val
      | None =>
          match strategy3 doc label with
          | Some txt => txt
          | None =>
              match strategy4 doc label with
              | Some t => t
              | None => []
              end
          end
      end
  end.

(* ================================================================== *)
(** ** parseOperatorPage                                               *)
(* ================================================================== *)

Record Release := mkRelease {
  date_global : jsval;
  event_name : jsval
}.

Record Image := mkImage {
  portrait : jsval;
  full : jsval
}.

(** The object literal returned by [parseOperatorPage]. *)
Record OperatorRecord := mkOperator {
  name : jsval;
  gender : jsval;
  rarity : jsval;
  class : jsval;
  archetype : jsval;
  faction : jsval;
  race : jsval;
  region : jsval;
  release : Release;
  image : Image;
  source : jsval
}.

(** The local variables of the [try] block, as functions of the
    loaded page. *)
Module Page.

Definition name (doc : document) : jsstring :=
  orElse (JsString.trim (text (select (on (hasId (js "firstHeading"))) doc)))
         (JsString.trim (text (select (on (hasClass (js "pi-title"))) doc))).

(** The two [if] statements that follow the image lookups.  The
    variable holds a string or [undefined]: [startsWith] is only
    called on a non-empty string. *)
Definition absolute (v : jsval) : jsval :=
  let v1 :=
    match v with
    | JString s =>
        if JsString.nonempty s && JsString.startsWith (js "//") s
        then JString (js "https:" ++ s) else v
    | _ => v
    end in
  match v1 with
  | JString s =>
      if JsString.nonempty s && JsString.startsWith (js "/") s
      then JString (siteRoot ++ s) else v1
  | _ => v1
  end.

(** [$('meta[property="og:image"]').attr("content") || ""] *)
Definition fullImage0 (doc : document) : jsval :=
  jsor (attr (js "content")
          (select (on (fun n => hasTag (js "meta") n &&
                                attrIs (js "property") (js "og:image") n)) doc))
       (JString []).

(** [portrait] after [if (piImage && piImage.length) ...]. *)
Definition portrait0 (doc : document) : jsval :=
  let piImage :=
    first (select (inside [hasClass (js "image"); hasClass (js "pi-image")]
                     (hasTag (js "img"))) doc) in
  if nonempty piImage then attr (js "src") piImage else JString [].

Definition portrait (doc : document) : jsval := absolute (portrait0 doc).
Definition fullImage (doc : document) : jsval := absolute (fullImage0 doc).

Definition rarityRaw `{Platform} (doc : document) : jsstring :=
  orElse (extractField doc (js "Rarity"))
    (orElse (extractField doc (js "Rarity/Stars"))
       (extractField doc (js "Star"))).

Definition rarityOf (raw : jsstring) : jsval :=
  jsor (JNumber (Finite (N.of_nat (JsString.countStars raw))))
       (match JsString.matchDigits raw with
        | Some ds => JNumber (nearestDouble (JsString.decimalValue ds))
        | None => JString []
        end).

Definition rarity `{Platform} (doc : document) : jsval :=
  rarityOf (rarityRaw doc).

Definition gender `{Platform} (doc : document) : jsstring :=
  orElse (extractField doc (js "Gender"))
    (orElse (extractField doc (js "Sex")) []).

Definition className `{Platform} (doc : document) : jsstring :=
  orElse (extractField doc (js "Class"))
    (orElse (extractField doc (js "Role")) []).

Definition archetype `{Platform} (doc : document) : jsstring :=
  orElse (extractField doc (js "Archetype"))
    (orElse (extractField doc (js "Type")) []).

Definition faction `{Platform} (doc : document) : jsstring :=
  orElse (extractField doc (js "Faction"))
    (orElse (extractField doc (js "Affiliation")) []).

Definition race `{Platform} (doc : document) : jsstring :=
  orElse (extractField doc (js "Race")) [].

Definition region `{Platform} (doc : document) : jsstring :=
  orElse (extractField doc (js "Region"))
    (orElse (extractField doc (js "Origin")) []).

Definition releaseRaw `{Platform} (doc : document) : jsstring :=
  orElse (extractField doc (js "Released"))
    (orElse (extractField doc (js "Release"))
       (orElse (extractField doc (js "Release Date"))
          (orElse (extractField doc (js "Recruitment")) []))).

(** [date_global] and [event_name] after [if (releaseRaw) { ... }]. *)
Definition dateOf (raw : jsstring) : jsstring :=
  if JsString.nonempty raw then
    match JsString.matchIso raw with
    | Some iso => iso
    | None =>
        match JsString.matchYear raw with
        | Some y => y
        | None => []
        end
    end
  else [].

Definition eventOf (raw : jsstring) : jsstring :=
  if JsString.nonempty raw then
    let event_name := JsString.trim (JsString.removeFirst (dateOf raw) raw) in
    if JsString.nonempty event_name then event_name else raw
  else [].

Definition date_global `{Platform} (doc : document) : jsstring :=
  dateOf (releaseRaw doc).

Definition event_name `{Platform} (doc : document) : jsstring :=
  eventOf (releaseRaw doc).

(** [tidy = (s) => (s ? s.replace(/\s+/g, " ").trim() : "")].  A
    truthy argument that is not a string has no [replace] method;
    the arguments of [tidy] are strings or [undefined]. *)
Definition tidy (s : jsval) : jsval :=
  if truthy s then
    match s with
    | JString x => JString (JsString.trim (JsString.collapseSpaces x))
    | _ => s
    end
  else JString [].

End Page.

(** The object literal of the [return] statement. *)
Definition pageRecord `{Platform} (doc : document) (opUrl : jsstring)
  : OperatorRecord :=
  {| name := Page.tidy (JString (Page.name doc));
     gender := Page.tidy (JString (Page.gender doc));
     rarity := jsor (Page.rarity doc) (JString []);
     class := Page.tidy (JString (Page.className doc));
     archetype := Page.tidy (JString (Page.archetype doc));
     faction := Page.tidy (JString (Page.faction doc));
     race := Page.tidy (JString (Page.race doc));
     region := Page.tidy (JString (Page.region doc));
     release := {| date_global := Page.tidy (JString (Page.date_global doc));
                   event_name := Page.tidy (JString (Page.event_name doc)) |};
     image := {| portrait := Page.tidy (Page.portrait doc);
                 full := Page.tidy (Page.fullImage doc) |};
     source := JString opUrl |}.

(** The page parser: the record, or [None] for [null], and what it
    writes with [console.error]. *)
Definition parseOperatorPage `{Platform} (opUrl : jsstring)
  : option OperatorRecord * list consoleEntry :=
  match fetchHtml opUrl with
  | Returned html =>
      match cheerio_load html with
      | Returned doc => (Some (pageRecord doc opUrl), [])
      | Thrown message =>
          (None, [ConsoleError [js "parseOperatorPage error for"; opUrl; message]])
      end
  | Thrown message =>
      (None, [ConsoleError [js "parseOperatorPage error for"; opUrl; message]])
  end.

(* ================================================================== *)
(** ** fetchOperatorLinksFromListing                                   *)
(* ================================================================== *)

(** [set.add(x)]: a [Set] keeps its elements in insertion order. *)
Definition setAdd (x : jsstring) (s : list jsstring) : list jsstring :=
  if existsb (JsString.eqb x) s then s else s ++ [x].

(** [#mw-content-text a[href^='prefix']] *)
Definition contentLink (prefix : jsstring) : element -> bool :=
  inside [hasId (js "mw-content-text")]
    (fun n => hasTag (js "a") n && attrStartsWith (js "href") prefix n).

(** [h.match(/Operator(s)?$/)] as a condition. *)
Definition endsInOperator (h : jsstring) : bool :=
  JsString.endsWith (js "Operator") h || JsString.endsWith (js "Operators") h.

(** The callback of the first [each]. *)
Definition addOperatorLink `{Platform} (links : list jsstring) (el : element)
  : list jsstring :=
  match attr (js "href") [el] with
  | JString h =>
      if JsString.nonempty h && negb (JsString.includes colon h)
      then setAdd (URL_href h) links
      else links
  | _ => links
  end.

(** The callback of the second [each]. *)
Definition addFallbackLink `{Platform} (links : list jsstring) (el : element)
  : list jsstring :=
  match attr (js "href") [el] with
  | JString h =>
      if negb (JsString.nonempty h) then links
      else if JsString.includes colon h then links
      else if endsInOperator h then links
      else
        let txt := JsString.trim (text [el]) in
        if JsString.nonempty txt && (length txt <? 40)%nat && JsString.hasLatin txt
        then setAdd (URL_href h) links
        else links
  | _ => links
  end.

(** The links collected from a loaded listing page. *)
Definition listingLinks `{Platform} (doc : document) : list jsstring :=
  let links1 :=
    fold_left addOperatorLink (select (contentLink (js "/wiki/Operator")) doc) [] in
  fold_left addFallbackLink (select (contentLink (js "/wiki/")) doc) links1.

Definition fetchOperatorLinksFromListing `{Platform} (listPageUrl : jsstring)
  : outcome (list jsstring) :=
  match fetchHtml listPageUrl with
  | Returned html =>
      match cheerio_load html with
      | Returned doc => Returned (listingLinks doc)
      | Thrown message => Thrown message
      end
  | Thrown message => Thrown message
  end.

(* ================================================================== *)
(** ** main                                                            *)
(* ================================================================== *)

Definition rarityPages : list jsstring :=
  [ js "Operator/1-star"; js "Operator/2-star"; js "Operator/3-star";
    js "Operator/4-star"; js "Operator/5-star"; js "Operator/6-star" ].

Definition BASE : jsstring := js "https://arknights.wiki.gg/wiki/".

(** [Array.prototype.sort] is stable, and for a consistent comparison
    function its result is determined: the stable arrangement, which
    insertion from the right computes. *)
Fixpoint insertSorted {A : Type} (cmp : A -> A -> Z) (x : A) (l : list A)
  : list A :=
  match l with
  | [] => [x]
  | y :: l' =>
      if (cmp x y <=? 0)%Z then x :: l else y :: insertSorted cmp x l'
  end.

Definition sortWith {A : Type} (cmp : A -> A -> Z) (l : list A) : list A :=
  fold_right (insertSorted cmp) [] l.

(** The comparison of [sort()] without an argument, on strings. *)
Definition codeUnitCompare (a b : jsstring) : Z :=
  if JsString.leb a b then (if JsString.leb b a then 0%Z else (-1)%Z)
  else 1%Z.

(** [a.name.localeCompare(b.name)].  The method is one of strings:
    [main] sorts records made by [parseOperatorPage], whose [name] is
    always a string. *)
Definition byNameOrder `{Platform} (a b : OperatorRecord) : Z :=
  match name a, name b with
  | JString x, JString y => localeCompare x y
  | _, _ => 0%Z
  end.

(** One turn of the loop over [rarityPages]. *)
Definition discoverStep `{Platform}
  (st : list jsstring * list consoleEntry) (page : jsstring)
  : list jsstring * list consoleEntry :=
  let url := BASE ++ page in
  match fetchOperatorLinksFromListing url with
  | Returned links => (fold_left (fun s l => setAdd l s) links (fst st), snd st)
  | Thrown message =>
      (fst st, snd st ++ [ConsoleError [js "Failed to fetch listing"; url; message]])
  end.

Definition discover `{Platform} : list jsstring * list consoleEntry :=
  fold_left discoverStep rarityPages ([], []).

(** One turn of the loop over [urls]. *)
Definition parseStep `{Platform}
  (st : list OperatorRecord * list consoleEntry) (u : jsstring)
  : list OperatorRecord * list consoleEntry :=
  match parseOperatorPage u with
  | (Some op, err) => (fst st ++ [op], snd st ++ err)
  | (None, err) => (fst st, snd st ++ err)
  end.

Definition parseAll `{Platform} (urls : list jsstring)
  : list OperatorRecord * list consoleEntry :=
  fold_left parseStep urls ([], []).

(** [byName]: a [Map], its entries in insertion order. *)
Definition mapHas (k : jsval) (m : list (jsval * OperatorRecord)) : bool :=
  existsb (fun kv => jsval_eqb k (fst kv)) m.

Definition dedupeStep (byName : list (jsval * OperatorRecord))
  (o : OperatorRecord) : list (jsval * OperatorRecord) :=
  if negb (truthy (name o)) then byName
  else if negb (mapHas (name o) byName) then byName ++ [(name o, o)]
  else byName.

(** From the parsed records to the array that is written out. *)
Definition finalize `{Platform} (operators : list OperatorRecord)
  : list OperatorRecord :=
  let byName := fold_left dedupeStep operators [] in
  sortWith byNameOrder (map snd byName).

(** The sorted URLs, the parsed records and the final collection of
    one run. *)
Definition urls `{Platform} : list jsstring :=
  sortWith codeUnitCompare (fst discover).

Definition operators `{Platform} : list OperatorRecord := fst (parseAll urls).

Definition final `{Platform} : list OperatorRecord := finalize operators.

(** [main]: the array [final] that is serialised and written, and the
    lines of [console.error]. *)
Definition main `{Platform} : list OperatorRecord * list consoleEntry :=
  (final, snd discover ++ snd (parseAll urls)).

(** *** The file that is written

    [JSON.stringify(final, null, 2)] as the JSON value it denotes; the
    text form (escapes, indentation) is not part of the model. *)
#[local] Set Warnings "-register-all".

Inductive json :=
| JsonNull
| JsonNumber (n : N)
| JsonString (s : jsstring)
| JsonArray (items : list json)
| JsonObject (members : list (jsstring * json)).

(** The serialised form of a property value: a property that holds
    [undefined] is left out, and a number that is not finite is
    written as [null]. *)
Definition jsonValue (v : jsval) : option json :=
  match v with
  | JUndefined => None
  | JNull => Some JsonNull
  | JString s => Some (JsonString s)
  | JNumber (Finite n) => Some (JsonNumber n)
  | JNumber Infinity => Some JsonNull
  end.

Definition jsonMember (key : String.string) (v : jsval)
  : list (jsstring * json) :=
  match jsonValue v with
  | Some j => [(js key, j)]
  | None => []
  end.

Definition recordJson (o : OperatorRecord) : json :=
  JsonObject
    (jsonMember "name" (name o) ++
     jsonMember "gender" (gender o) ++
     jsonMember "rarity" (rarity o) ++
     jsonMember "class" (class o) ++
     jsonMember "archetype" (archetype o) ++
     jsonMember "faction" (faction o) ++
     jsonMember "race" (race o) ++
     jsonMember "region" (region o) ++
     [(js "release",
       JsonObject (jsonMember "date_global" (date_global (release o)) ++
                   jsonMember "event_name" (event_name (release o))))] ++
     [(js "image",
       JsonObject (jsonMember "portrait" (portrait (image o)) ++
                   jsonMember "full" (full (image o))))] ++
     jsonMember "source" (source o)).

(** The content of [operators.json] after the run. *)
Definition operatorsJson `{Platform} : json := JsonArray (map recordJson final).

(** The member [key] of a JSON object, as a reader of the file gets
    it; [None] when the member is missing. *)
Fixpoint jsonLookup (key : jsstring) (members : list (jsstring * json))
  : option json :=
  match members with
  | [] => None
  | (k, j) :: members' =>
      if JsString.eqb k key then Some j else jsonLookup key members'
  end.

Definition jsonField (key : String.string) (j : json) : option json :=
  match j with
  | JsonObject members => jsonLookup (js key) members
  | _ => None
  end.

(* ================================================================== *)
(** ** Test pages                                                      *)
(* ================================================================== *)

(** A small site to run the script on: ASCII pages served from a
    table, a request for any other address being rejected. *)
Module Fixture.

Definition asciiLower (s : jsstring) : jsstring :=
  map (fun c => if ((65 <=? c) && (c <=? 90))%N then (c + 32)%N else c) s.

Fixpoint serve (pages : list (jsstring * document)) (url : jsstring)
  : outcome document :=
  match pages with
  | [] => Thrown (js "Request failed with status code 404")
  | (u, d) :: pages' =>
      if JsString.eqb u url then Returned d else serve pages' url
  end.

(** A response body is markup, given here as the tree it parses to,
    or [None]: the body [null], which [cheerio.load] rejects.  The
    addresses in [nulls] answer with such a body. *)
Definition siteWith (nulls : list jsstring)
  (pages : list (jsstring * document)) : Platform :=
  {| html := option document;
     axios_get := fun url =>
       if existsb (JsString.eqb url) nulls then Returned None
       else match serve pages url with
            | Returned d => Returned (Some d)
            | Thrown message => Thrown message
            end;
     cheerio_load := fun body =>
       match body with
       | Some d => Returned d
       | None => Thrown (js "cheerio.load() expects a string")
       end;
     toLowerCase := asciiLower;
     localeCompare := codeUnitCompare;
     URL_href := fun h => siteRoot ++ h |}.

Definition site (pages : list (jsstring * document)) : Platform :=
  siteWith [] pages.

Definition div (cls : String.string) (kids : list node) : node :=
  Elem (js "div") [(js "class", js cls)] kids.

(** One row of a portable infobox. *)
Definition row (label value : jsstring) : node :=
  div "pi-item pi-data"
    [ Elem (js "h3") [(js "class", js "pi-data-label")] [Text label];
      div "pi-data-value" [Text value] ].

(** An operator page: heading, preview image, infobox image, rows. *)
Definition page (heading : String.string) (og src : option jsstring)
  (rows : list (jsstring * jsstring)) : document :=
  [ Elem (js "head") []
      (match og with
       | Some o => [Elem (js "meta") [(js "property", js "og:image");
                                      (js "content", o)] []]
       | None => []
       end);
    Elem (js "body") []
      [ Elem (js "h1") [(js "id", js "firstHeading")] [Text (js heading)];
        Elem (js "aside") [(js "class", js "portable-infobox")]
          (Elem (js "figure") [(js "class", js "pi-item pi-image")]
             [Elem (js "a") [(js "class", js "image")]
                [Elem (js "img")
                   (match src with
                    | Some s => [(js "src", s)]
                    | None => []
                    end) []]]
           :: map (fun r => row (fst r) (snd r)) rows) ] ].

Definition link (href text : String.string) : node :=
  Elem (js "a") [(js "href", js href)] [Text (js text)].

(** A listing page with the given links in its content. *)
Definition listing (links : list node) : document :=
  [ Elem (js "body") []
      [ Elem (js "div") [(js "id", js "mw-content-text")]
          [Elem (js "ul") [] links] ] ].

Definition fiveStars : jsstring := repeat JsString.star 5.

Definition texas : document :=
  page "  Texas " (Some (js "/wiki/img.png")) (Some (js "//example.com/img.png"))
    [ (js "Rarity", fiveStars);
      (js "Class", js "Vanguard");
      (js "Released", js "Released in 2018") ].

Definition exusiai : document :=
  page "Exusiai" (Some (js "//example.com/img.png")) (Some (js "/wiki/img.png"))
    [ (js "Rarity", js "Tier 0");
      (js "Release Date", js "Released: 2020-05-14 duringIc3 Blazing Summer") ].

(** A page without image source, rarity and release rows. *)
Definition bare : document := page "Bare" None None [].

(** A second page with the heading of [texas]. *)
Definition texasAgain : document :=
  page "Texas" None None [ (js "Class", js "Guard") ].

Definition sixStars : jsstring := BASE ++ js "Operator/6-star".
Definition urlExusiai : jsstring := siteRoot ++ js "/wiki/Exusiai".
Definition urlLappland : jsstring := siteRoot ++ js "/wiki/Lappland".
Definition urlTexas : jsstring := siteRoot ++ js "/wiki/Texas".

Definition roster : document :=
  listing [ link "/wiki/Texas" "Texas";
            link "/wiki/Lappland" "Lappland";
            link "/wiki/Exusiai" " Exusiai ";
            link "/wiki/Texas" "Texas (again)";
            link "/wiki/File:Texas.png" "Portrait";
            link "/wiki/Reserve_Operators" "Reserve Operators";
            link "/wiki/Operators" "Operators";
            link "/wiki/Skadi" "12";
            link "/wiki/Operator/5-star" "5-star operators" ].

(** Three operator links, the page of the second one missing. *)
Definition shortRoster : document :=
  listing [ link "/wiki/Texas" "Texas";
            link "/wiki/Lappland" "Lappland";
            link "/wiki/Exusiai" "Exusiai" ].

(** A listing whose only link leads to a page about reserve operators. *)
Definition reserves : document :=
  listing [ link "/wiki/Reserve_Operators" "Reserve Operators" ].

Definition noElement : element := mkElement (Text []) [] None.

Definition wiki : Platform :=
  site [ (sixStars, shortRoster); (urlTexas, texas); (urlExusiai, exusiai) ].

(** A page whose images are given by a relative path and by an
    [http] address. *)
Definition relative : document :=
  page "Relative" (Some (js "http://example.com/full.png"))
    (Some (js "images/texas.png")) [].

(** A page whose rarity is a run of 310 digits. *)
Definition overflow : document :=
  page "Overflow" None None [ (js "Rarity", repeat 57%N 310) ].

(** The site with that page in the place of Texas. *)
Definition wikiOverflow : Platform :=
  site [ (sixStars, shortRoster); (urlTexas, overflow); (urlExusiai, exusiai) ].

(** The site with the body [null] sent for the page of Texas. *)
Definition wikiNullBody : Platform :=
  siteWith [urlTexas]
    [ (sixStars, shortRoster); (urlTexas, texas); (urlExusiai, exusiai) ].

(** The same site, the page of Exusiai carrying the heading of Texas. *)
Definition wikiSameName : Platform :=
  site [ (sixStars, shortRoster); (urlTexas, texas); (urlExusiai, texasAgain) ].

(** A page where each attempt of [extractField] for the label
    [Class] finds another value. *)
Definition rigged : document :=
  [ Elem (js "body") []
      [ Elem (js "p") []
          [ Elem (js "span") [(js "class", js "pi-data-label")] [Text (js "class")];
            Elem (js "span") [(js "class", js "pi-data-value")] [Text (js "second")] ];
        Elem (js "table") []
          [ Elem (js "tr") []
              [ Elem (js "th") [] [Text (js "Class and branch")];
                Elem (js "td") [] [Text (js "third")] ] ];
        Elem (js "p") []
          [ Elem (js "b") [] [Text (js "Class")];
            Elem (js "i") [] [Text (js "fourth")] ];
        row (js " CLASS ") (js " Guard ") ] ].

(** [rigged] without its infobox row. *)
Definition riggedNoRow : document :=
  match rigged with
  | [Elem t a ks] => [Elem t a (removelast ks)]
  | d => d
  end.

End Fixture.

(* ================================================================== *)
(** ** Predicates of the specification                                 *)
(* ================================================================== *)

(** Every declared field holds a string, [rarity] a number or the
    empty string; no field is [undefined] or [null]. *)
Definition wellFormed (o : OperatorRecord) : Prop :=
  isString (name o) /\ isString (gender o) /\ isString (class o) /\
  isString (archetype o) /\ isString (faction o) /\ isString (race o) /\
  isString (region o) /\
  (isNumber (rarity o) \/ rarity o = JString []) /\
  isString (date_global (release o)) /\ isString (event_name (release o)) /\
  isString (portrait (image o)) /\ isString (full (image o)) /\
  isString (source o).

(** The records made from the pages that could be fetched and loaded,
    one per URL, in the order of the URLs. *)
Definition parsed `{Platform} (u : jsstring) : list OperatorRecord :=
  match fst (parseOperatorPage u) with
  | Some op => [op]
  | None => []
  end.

(** [o] is the first record of [l] that carries its name. *)
Definition firstOfName (o : OperatorRecord) (l : list OperatorRecord) : Prop :=
  exists l1 l2, l = l1 ++ o :: l2 /\ forall o', In o' l1 -> name o' <> name o.

(** The condition under which the second heuristic of the listing
    crawler keeps a link with address [h] and trimmed text [txt]. *)
Definition fallbackAccepts (h txt : jsstring) : bool :=
  negb (JsString.includes colon h) && negb (endsInOperator h) &&
  JsString.nonempty txt && (length txt <? 40)%nat && JsString.hasLatin txt.

(** The same condition in the words of the specification: the path is
    not the one of the plural listing page. *)
Definition fallbackAccepts_spec (h txt : jsstring) : bool :=
  negb (JsString.includes colon h) &&
  negb (JsString.eqb h (js "/wiki/Operators")) &&
  JsString.nonempty txt && (length txt <? 40)%nat && JsString.hasLatin txt.

(** [a] may stand before [b] in an array sorted with [cmp]. *)
Definition sortsBefore {A : Type} (cmp : A -> A -> Z) (a b : A) : Prop :=
  (cmp a b <= 0)%Z.

(** An absolute address of the site without a colon after the origin. *)
Definition sitePage (u : jsstring) : Prop :=
  exists rest,
    u = siteRoot ++ rest /\
    JsString.startsWith (js "/") rest = true /\
    JsString.includes colon rest = false.

(* ================================================================== *)
(** ** Further predicates on the scraper                               *)
(* ================================================================== *)

(** Every white-space code unit of [s] is a space, and no space stands
    next to another one; [prev] tells that a space precedes [s]. *)
Fixpoint spacedFrom (prev : bool) (s : jsstring) : bool :=
  match s with
  | [] => true
  | c :: s' =>
      if JsString.isWhiteSpace c
      then (c =? 32)%N && negb prev && spacedFrom true s'
      else spacedFrom false s'
  end.

(** The first code unit of [s], if there is one, is not white space. *)
Definition solidHead (s : jsstring) : Prop :=
  match s with
  | [] => True
  | c :: _ => JsString.isWhiteSpace c = false
  end.

(** Neither end of [s] is white space. *)
Definition solidEnds (s : jsstring) : Prop := solidHead s /\ solidHead (rev s).

(** Four digits. *)
Definition yearShaped (d : jsstring) : bool :=
  (length d =? 4)%nat && forallb JsString.isDigit d.

(** Four digits, a hyphen, two digits, a hyphen, two digits. *)
Definition isoShaped (d : jsstring) : bool :=
  match d with
  | [y1; y2; y3; y4; h1; m1; m2; h2; d1; d2] =>
      forallb JsString.isDigit [y1; y2; y3; y4; m1; m2; d1; d2] &&
      (h1 =? 45)%N && (h2 =? 45)%N
  | _ => false
  end.

(** The page at [url] is fetched and loaded. *)
Definition loaded `{Platform} (url : jsstring) : bool :=
  match fetchHtml url with
  | Returned html =>
      match cheerio_load html with
      | Returned _ => true
      | Thrown _ => false
      end
  | Thrown _ => false
  end.

(** The line [main] writes when the listing [page] cannot be fetched. *)
Definition listingFailure `{Platform} (page : jsstring) : list consoleEntry :=
  match fetchOperatorLinksFromListing (BASE ++ page) with
  | Returned _ => []
  | Thrown message =>
      [ConsoleError [js "Failed to fetch listing"; BASE ++ page; message]]
  end.

(** The line [parseOperatorPage] writes when [u] cannot be fetched or
    its body cannot be loaded. *)
Definition pageFailure `{Platform} (u : jsstring) : list consoleEntry :=
  match fetchHtml u with
  | Returned html =>
      match cheerio_load html with
      | Returned _ => []
      | Thrown message =>
          [ConsoleError [js "parseOperatorPage error for"; u; message]]
      end
  | Thrown message =>
      [ConsoleError [js "parseOperatorPage error for"; u; message]]
  end.

(** Some occurrence of [a] in [l] is followed, later on, by [b]. *)
Fixpoint precedes {A : Type} (a b : A) (l : list A) : Prop :=
  match l with
  | [] => False
  | y :: l' => (y = a /\ In b l') \/ precedes a b l'
  end.

(** [a] sorts strictly before [b] in code-unit order. *)
Definition strictlyBefore (a b : jsstring) : Prop :=
  JsString.leb a b = true /\ a <> b.

(* ================================================================== *)
(** ** The game: the daily operator and the countdown                  *)
(* ================================================================== *)

(** The time functions of the component that shows the game
    ([src/unnamed/part_000]).  A [Date] is its time value, the number
    of milliseconds since the epoch, inside the range of [Date]; every
    reading of the clock, [new Date()], is an argument.  The quotients
    taken here are below 2^27 and a time value is an integer, so that
    [Math.floor] of the double quotient is the integer quotient. *)
Module Game.

Definition msPerMinute : Z := 1000 * 60.
Definition msPerHour : Z := 1000 * 60 * 60.
Definition msPerDay : Z := 1000 * 60 * 60 * 24.

(** [d.getUTCHours()] *)
Definition getUTCHours (t : Z) : Z := ((t / msPerHour) mod 24)%Z.

(** [d.setUTCDate(d.getUTCDate() + k)]: the same time of day, [k]
    days later. *)
Definition addUTCDate (t k : Z) : Z := (t + k * msPerDay)%Z.

(** [d.setUTCHours(11, 0, 0, 0)]: 11:00 UTC of the same day. *)
Definition setUTCHours11 (t : Z) : Z :=
  ((t / msPerDay) * msPerDay + 11 * msPerHour)%Z.

(** [daySeed] in [getDailyOperator]. *)
Definition daySeed (clock offsetDays : Z) : Z :=
  let now := clock in
  let utcHour := getUTCHours now in
  let now := if (utcHour <? 11)%Z then addUTCDate now (-1) else now in
  let now := addUTCDate now (- offsetDays) in
  (now / msPerDay)%Z.

(** [operators[daySeed % operators.length]]; [None] is [undefined]:
    the remainder is not a number for an empty array and is negative
    for a negative seed that is no multiple of the length. *)
Definition getDailyOperator (operators : list OperatorRecord)
  (clock offsetDays : Z) : option OperatorRecord :=
  let len := Z.of_nat (length operators) in
  if (len =? 0)%Z then None
  else
    let index := Z.rem (daySeed clock offsetDays) len in
    if (index <? 0)%Z then None else nth_error operators (Z.to_nat index).

(** [getNextReset], the clock reading [clock]. *)
Definition getNextReset (clock : Z) : Z :=
  let now := clock in
  let nextReset := setUTCHours11 now in
  if (getUTCHours now >=? 11)%Z then addUTCDate nextReset 1 else nextReset.

Fixpoint digitsOf (d : Decimal.uint) : jsstring :=
  match d with
  | Decimal.Nil => []
  | Decimal.D0 d => 48%N :: digitsOf d
  | Decimal.D1 d => 49%N :: digitsOf d
  | Decimal.D2 d => 50%N :: digitsOf d
  | Decimal.D3 d => 51%N :: digitsOf d
  | Decimal.D4 d => 52%N :: digitsOf d
  | Decimal.D5 d => 53%N :: digitsOf d
  | Decimal.D6 d => 54%N :: digitsOf d
  | Decimal.D7 d => 55%N :: digitsOf d
  | Decimal.D8 d => 56%N :: digitsOf d
  | Decimal.D9 d => 57%N :: digitsOf d
  end.

(** [n.toString()] for a natural number below 2^53. *)
Definition toString (n : Z) : jsstring := digitsOf (N.to_uint (Z.to_N n)).

(** [s.padStart(2, "0")] *)
Definition padStart2 (s : jsstring) : jsstring :=
  repeat 48%N (2 - length s) ++ s.

(** What [updateCountdown] sets: [staleData] when it sets it, and
    [timeLeft]. *)
Record countdown := mkCountdown {
  staleData : option bool;
  timeLeft : jsstring
}.

(** [updateCountdown]: [clock] is its own reading of the clock and
    [clock'] the one [getNextReset] takes after it. *)
Definition updateCountdown (clock clock' : Z) : countdown :=
  let now := clock in
  let nextReset := getNextReset clock' in
  let diffMs := (nextReset - now)%Z in
  if (diffMs <=? 0)%Z then mkCountdown (Some true) (js "00h 00m")
  else
    let hours := (diffMs / msPerHour)%Z in
    let minutes := (Z.rem diffMs msPerHour / msPerMinute)%Z in
    mkCountdown None
      (padStart2 (toString hours) ++ js "h " ++
       padStart2 (toString minutes) ++ js "m").

End Game.

(* ================================================================== *)
(** ** Strings, values and lists                                       *)
(* ================================================================== *)

Lemma eqb_spec (a b : jsstring) : JsString.eqb a b = true <-> a = b.
Proof.
  revert b; induction a as [|x a IH]; intros [|y b]; simpl;
    try (split; [discriminate | congruence]); [tauto|].
  rewrite andb_true_iff, N.eqb_eq, IH.
  split; [intros [-> ->]; reflexivity | intros [= -> ->]; auto].
Qed.

Lemma eqb_refl (a : jsstring) : JsString.eqb a a = true.
Proof. now apply eqb_spec. Qed.

Lemma number_eqb_spec (x y : number) : number_eqb x y = true <-> x = y.
Proof.
  destruct x, y; simpl; try (split; [discriminate | congruence]);
    try tauto.
  rewrite N.eqb_eq; split; congruence.
Qed.

Lemma jsval_eqb_spec (a b : jsval) : jsval_eqb a b = true <-> a = b.
Proof.
  destruct a, b; simpl; try (split; [discriminate | congruence]);
    try tauto.
  - rewrite eqb_spec; split; congruence.
  - rewrite number_eqb_spec; split; congruence.
Qed.

Lemma nearestDouble_zero (n : N) :
  nearestDouble n = Finite 0 <-> n = 0%N.
Proof.
  split; [|intros ->; reflexivity].
  unfold nearestDouble.
  destruct (N.leb_spec (N.size n) 53) as [Hs|Hs]; [congruence|].
  set (e := (N.size n - 53)%N).
  set (q := N.shiftr n e).
  match goal with
  | |- context [if ?c then (q + 1)%N else q] =>
      set (q' := if c then (q + 1)%N else q)
  end.
  destruct (2 ^ 1024 <=? N.shiftl q' e)%N; [discriminate|].
  intros [= E]. exfalso.
  assert (Hn : (0 < n)%N) by (destruct n; [simpl in Hs; lia | lia]).
  assert (Hq : (1 <= q)%N).
  { unfold q. rewrite N.shiftr_div_pow2.
    apply N.div_le_lower_bound; [apply N.pow_nonzero; lia|].
    rewrite N.mul_1_r.
    apply N.le_trans with (2 ^ N.log2 n)%N; [|now apply N.log2_spec].
    apply N.pow_le_mono_r; [lia|].
    unfold e. rewrite (N.size_log2 n) by lia. lia. }
  assert (Hq' : (1 <= q')%N) by (unfold q'; destruct (_ || _); lia).
  rewrite N.shiftl_mul_pow2 in E.
  apply N.eq_mul_0 in E. destruct E as [E | E]; [lia|].
  revert E. apply N.pow_nonzero. lia.
Qed.

Lemma startsWith_app (p q s : jsstring) :
  JsString.startsWith (p ++ q) s = true -> JsString.startsWith p s = true.
Proof.
  revert s; induction p as [|x p IH]; intros s; simpl; [reflexivity|].
  destruct s as [|y s]; [discriminate|].
  rewrite !andb_true_iff; intros [H1 H2]; split; auto.
Qed.

Lemma startsWith_prefix (p s : jsstring) : JsString.startsWith p (p ++ s) = true.
Proof.
  induction p as [|x p IH]; simpl; [reflexivity|].
  now rewrite N.eqb_refl.
Qed.

Lemma fold_left_invariant {A B : Type} (f : A -> B -> A) (Inv : A -> Prop)
  (l : list B) (a : A) :
  Inv a -> (forall x b, In b l -> Inv x -> Inv (f x b)) ->
  Inv (fold_left f l a).
Proof.
  revert a; induction l as [|b l IH]; intros a Ha Hstep; simpl; [exact Ha|].
  apply IH.
  - apply Hstep; [now left | exact Ha].
  - intros x b' Hb'; apply Hstep; now right.
Qed.

(* ------------------------------------------------------------------ *)
(** *** The code-unit order                                            *)

Lemma leb_refl (a : jsstring) : JsString.leb a a = true.
Proof.
  induction a as [|x a IH]; simpl; [reflexivity|].
  now rewrite N.ltb_irrefl.
Qed.

Lemma leb_total (a b : jsstring) :
  JsString.leb a b = true \/ JsString.leb b a = true.
Proof.
  revert b; induction a as [|x a IH]; intros [|y b]; simpl; auto.
  destruct (N.ltb_spec x y), (N.ltb_spec y x); auto; lia.
Qed.

Lemma leb_trans (a b c : jsstring) :
  JsString.leb a b = true -> JsString.leb b c = true -> JsString.leb a c = true.
Proof.
  revert b c; induction a as [|x a IH]; intros [|y b] [|z c]; simpl;
    try reflexivity; try discriminate.
  destruct (N.ltb_spec x y), (N.ltb_spec y x), (N.ltb_spec y z),
    (N.ltb_spec z y), (N.ltb_spec x z), (N.ltb_spec z x);
    try reflexivity; try discriminate; try lia.
  apply IH.
Qed.

Lemma leb_antisym (a b : jsstring) :
  JsString.leb a b = true -> JsString.leb b a = true -> a = b.
Proof.
  revert b; induction a as [|x a IH]; intros [|y b]; simpl;
    try reflexivity; try discriminate.
  destruct (N.ltb_spec x y), (N.ltb_spec y x); try discriminate; try lia.
  intros H1 H2. f_equal; [lia | now apply IH].
Qed.

Lemma codeUnitCompare_le (a b : jsstring) :
  (codeUnitCompare a b <= 0)%Z <-> JsString.leb a b = true.
Proof.
  unfold codeUnitCompare.
  destruct (JsString.leb a b), (JsString.leb b a); split; intros; try lia;
    try reflexivity; discriminate.
Qed.

(* ------------------------------------------------------------------ *)
(** *** Sorting                                                        *)

Section Sorting.

Variable A : Type.
Variable cmp : A -> A -> Z.

Local Abbreviation before := (sortsBefore cmp).

Lemma insertSorted_perm (x : A) (l : list A) :
  Permutation (insertSorted cmp x l) (x :: l).
Proof.
  induction l as [|y l IH]; simpl; [reflexivity|].
  destruct (cmp x y <=? 0)%Z; [reflexivity|].
  rewrite IH. apply perm_swap.
Qed.

Lemma sortWith_perm (l : list A) : Permutation (sortWith cmp l) l.
Proof.
  induction l as [|x l IH]; simpl; [reflexivity|].
  rewrite insertSorted_perm. now constructor.
Qed.

Lemma sortWith_In (l : list A) (x : A) : In x (sortWith cmp l) <-> In x l.
Proof.
  split; apply Permutation_in;
    [apply sortWith_perm | symmetry; apply sortWith_perm].
Qed.

Hypothesis total : forall a b, before a b \/ before b a.

Lemma insertSorted_sorted (x : A) (l : list A) :
  Sorted before l -> Sorted before (insertSorted cmp x l).
Proof.
  induction 1 as [|y l Hl IH Hy]; simpl.
  - repeat constructor.
  - destruct (Z.leb_spec (cmp x y) 0) as [Hxy|Hxy].
    + constructor; [now constructor | now constructor].
    + constructor; [exact IH|].
      assert (Hyx : before y x).
      { destruct (total x y); [unfold sortsBefore in *; lia | assumption]. }
      destruct Hy as [|z l' Hz]; simpl.
      * now constructor.
      * destruct (cmp x z <=? 0)%Z; now constructor.
Qed.

Lemma sortWith_sorted (l : list A) : Sorted before (sortWith cmp l).
Proof.
  induction l as [|x l IH]; simpl; [constructor|].
  now apply insertSorted_sorted.
Qed.

End Sorting.

(* ================================================================== *)
(** ** The page parser                                                 *)
(* ================================================================== *)

Lemma tidy_string (v : jsval) :
  v = JUndefined \/ isString v -> isString (Page.tidy v).
Proof.
  intros [-> | [s ->]]; unfold Page.tidy; simpl.
  - now exists [].
  - destruct (JsString.nonempty s); eexists; reflexivity.
Qed.

Lemma absolute_string (v : jsval) :
  v = JUndefined \/ isString v ->
  Page.absolute v = JUndefined \/ isString (Page.absolute v).
Proof.
  intros [-> | [s ->]]; [now left | right].
  unfold Page.absolute.
  destruct (JsString.nonempty s && JsString.startsWith (js "//") s).
  - match goal with
    | |- context [if ?c then _ else _] => destruct c
    end; eexists; reflexivity.
  - destruct (JsString.nonempty s && JsString.startsWith (js "/") s);
      eexists; reflexivity.
Qed.

Lemma attr_string (a : jsstring) (s : selection) :
  attr a s = JUndefined \/ isString (attr a s).
Proof.
  unfold attr. destruct s as [|e s]; [now left|].
  destruct (attribute a (self e)); [right; eexists; reflexivity | now left].
Qed.

Lemma portrait0_string (doc : document) :
  Page.portrait0 doc = JUndefined \/ isString (Page.portrait0 doc).
Proof.
  unfold Page.portrait0.
  match goal with |- context [if ?c then _ else _] => destruct c end.
  - apply attr_string.
  - right; now exists [].
Qed.

Lemma fullImage0_string (doc : document) : isString (Page.fullImage0 doc).
Proof.
  unfold Page.fullImage0, jsor.
  match goal with
  | |- context [truthy (attr ?a ?sel)] =>
      destruct (attr_string a sel) as [E | [s E]]; rewrite E
  end.
  - simpl. now exists [].
  - destruct (truthy (JString s)); eexists; reflexivity.
Qed.

Lemma rarityOf_cases (raw : jsstring) :
  (exists x, x <> Finite 0 /\
             jsor (Page.rarityOf raw) (JString []) = JNumber x) \/
  jsor (Page.rarityOf raw) (JString []) = JString [].
Proof.
  assert (Hnum : forall x,
            (exists y, y <> Finite 0 /\
                       jsor (JNumber x) (JString []) = JNumber y) \/
            jsor (JNumber x) (JString []) = JString []).
  { intros x. unfold jsor; simpl.
    destruct (number_eqb x (Finite 0)) eqn:E; simpl; [now right | left].
    exists x. split; [|reflexivity].
    intros ->. simpl in E. discriminate E. }
  unfold Page.rarityOf. unfold jsor at 2 4; simpl truthy.
  destruct (N.of_nat (JsString.countStars raw) =? 0)%N; simpl negb; cbv iota.
  - destruct (JsString.matchDigits raw) as [ds|]; [apply Hnum | now right].
  - apply Hnum.
Qed.

Lemma pageRecord_wellFormed `{Platform} (doc : document) (opUrl : jsstring) :
  wellFormed (pageRecord doc opUrl).
Proof.
  unfold wellFormed, pageRecord; simpl.
  repeat match goal with
         | |- _ /\ _ => split
         | |- isString (Page.tidy (JString _)) =>
             apply tidy_string; right; eexists; reflexivity
         end.
  - destruct (rarityOf_cases (Page.rarityRaw doc)) as [[n [_ E]] | E];
      unfold Page.rarity; rewrite E; [left; now exists n | now right].
  - apply tidy_string, absolute_string, portrait0_string.
  - apply tidy_string, absolute_string. right; apply fullImage0_string.
  - eexists; reflexivity.
Qed.

Lemma parseOperatorPage_cases `{Platform} (opUrl : jsstring) :
  (exists doc,
     (exists page, fetchHtml opUrl = Returned page /\
                   cheerio_load page = Returned doc) /\
     parseOperatorPage opUrl = (Some (pageRecord doc opUrl), [])) \/
  (exists message,
     (fetchHtml opUrl = Thrown message \/
      exists page, fetchHtml opUrl = Returned page /\
                   cheerio_load page = Thrown message) /\
     parseOperatorPage opUrl =
       (None, [ConsoleError [js "parseOperatorPage error for"; opUrl; message]])).
Proof.
  unfold parseOperatorPage.
  destruct (fetchHtml opUrl) as [page|message].
  - destruct (cheerio_load page) as [doc|message] eqn:El.
    + left. exists doc. split; [now exists page | reflexivity].
    + right. exists message. split; [right; now exists page | reflexivity].
  - right. exists message. split; [now left | reflexivity].
Qed.

Lemma parsed_source `{Platform} (u : jsstring) (o : OperatorRecord) :
  In o (parsed u) -> source o = JString u /\ parsed u = [o].
Proof.
  unfold parsed.
  destruct (parseOperatorPage_cases u) as [[page [_ E]] | [m [_ E]]];
    rewrite E; simpl; [|tauto].
  intros [<- | []]. split; reflexivity.
Qed.

Lemma parsed_wellFormed `{Platform} (u : jsstring) (o : OperatorRecord) :
  In o (parsed u) -> wellFormed o.
Proof.
  unfold parsed.
  destruct (parseOperatorPage_cases u) as [[page [_ E]] | [m [_ E]]];
    rewrite E; simpl; [|tauto].
  intros [<- | []]. apply pageRecord_wellFormed.
Qed.

(* ================================================================== *)
(** ** The orchestrator                                                *)
(* ================================================================== *)

Lemma parseAll_from `{Platform} (l : list jsstring)
  (st : list OperatorRecord * list consoleEntry) :
  fold_left parseStep l st =
    (fst st ++ flat_map parsed l,
     snd st ++ flat_map (fun u => snd (parseOperatorPage u)) l).
Proof.
  revert st; induction l as [|u l IH]; intros [ops err]; simpl.
  - now rewrite !app_nil_r.
  - rewrite IH. unfold parseStep, parsed.
    destruct (parseOperatorPage u) as [[op|] e]; simpl;
      now rewrite <- ?app_assoc.
Qed.

Lemma operators_parsed `{Platform} : operators = flat_map parsed urls.
Proof. unfold operators, parseAll. now rewrite parseAll_from. Qed.

Lemma operators_origin `{Platform} (o : OperatorRecord) :
  In o operators ->
  exists u, In u urls /\ source o = JString u /\ parsed u = [o].
Proof.
  rewrite operators_parsed, in_flat_map.
  intros [u [Hu Ho]]. exists u. split; [exact Hu|]. now apply parsed_source.
Qed.

Lemma mapHas_In (k : jsval) (m : list (jsval * OperatorRecord)) :
  mapHas k m = true <-> In k (map fst m).
Proof.
  unfold mapHas. rewrite existsb_exists, in_map_iff. split.
  - intros [kv [Hin E]]. apply jsval_eqb_spec in E. now exists kv.
  - intros [kv [E Hin]]. exists kv. split; [exact Hin|].
    now apply jsval_eqb_spec.
Qed.

Lemma firstOfName_snoc (o x : OperatorRecord) (l : list OperatorRecord) :
  firstOfName o l -> firstOfName o (l ++ [x]).
Proof.
  intros [l1 [l2 [-> Hl1]]]. exists l1, (l2 ++ [x]).
  split; [now rewrite <- app_assoc | exact Hl1].
Qed.

(** What holds of [byName] after the loop over [l]. *)
Lemma dedupe_invariant (l : list OperatorRecord) :
  NoDup (map fst (fold_left dedupeStep l [])) /\
  (forall k o, In (k, o) (fold_left dedupeStep l []) ->
     k = name o /\ truthy k = true /\ firstOfName o l) /\
  (forall o, In o l -> truthy (name o) = true ->
     In (name o) (map fst (fold_left dedupeStep l []))).
Proof.
  induction l as [|x l IH] using rev_ind.
  - simpl. split; [constructor | split; intros; contradiction].
  - rewrite fold_left_app; simpl.
    destruct IH as [Hnd [Hent Hall]].
    set (D := fold_left dedupeStep l []) in *.
    unfold dedupeStep.
    destruct (truthy (name x)) eqn:Ex; simpl.
    + destruct (mapHas (name x) D) eqn:Hx; simpl.
      * split; [exact Hnd|]. split.
        -- intros k o Hin. destruct (Hent k o Hin) as [? [? ?]].
           auto using firstOfName_snoc.
        -- intros o Ho Ht. apply in_app_or in Ho.
           destruct Ho as [Ho | [<- | []]]; [now apply Hall|].
           now apply mapHas_In.
      * assert (Hnew : ~ In (name x) (map fst D)).
        { intros Hin. apply mapHas_In in Hin. congruence. }
        split; [|split].
        -- rewrite map_app; simpl.
           apply NoDup_app; [exact Hnd | constructor; [intros [] | constructor] |].
           intros k Hk [<- | []]. contradiction.
        -- intros k o Hin. apply in_app_or in Hin.
           destruct Hin as [Hin | [[= <- <-] | []]].
           ++ destruct (Hent k o Hin) as [? [? ?]].
              auto using firstOfName_snoc.
           ++ split; [reflexivity|]. split; [exact Ex|].
              exists l, []. split; [reflexivity|].
              intros o' Ho' E. apply Hnew. rewrite <- E.
              apply Hall; [exact Ho' | now rewrite E].
        -- intros o Ho Ht. rewrite map_app; apply in_or_app.
           apply in_app_or in Ho.
           destruct Ho as [Ho | [<- | []]]; [left; now apply Hall|].
           right; now left.
    + split; [exact Hnd|]. split.
      * intros k o Hin. destruct (Hent k o Hin) as [? [? ?]].
        auto using firstOfName_snoc.
      * intros o Ho Ht. apply in_app_or in Ho.
        destruct Ho as [Ho | [<- | []]]; [now apply Hall | congruence].
Qed.

Lemma byName_names (l : list OperatorRecord) :
  map name (map snd (fold_left dedupeStep l [])) =
  map fst (fold_left dedupeStep l []).
Proof.
  destruct (dedupe_invariant l) as [_ [Hent _]].
  rewrite map_map. apply map_ext_in.
  intros [k o] Hin. simpl. now destruct (Hent k o Hin) as [-> _].
Qed.

Lemma finalize_In `{Platform} (l : list OperatorRecord) (o : OperatorRecord) :
  In o (finalize l) <-> In (name o, o) (fold_left dedupeStep l []).
Proof.
  unfold finalize. rewrite sortWith_In, in_map_iff.
  destruct (dedupe_invariant l) as [_ [Hent _]].
  split.
  - intros [[k o'] [E Hin]]. simpl in E. subst o'.
    now destruct (Hent k o Hin) as [-> _].
  - intros Hin. now exists (name o, o).
Qed.

Lemma finalize_names_NoDup `{Platform} (l : list OperatorRecord) :
  NoDup (map name (finalize l)).
Proof.
  unfold finalize.
  apply Permutation_NoDup with (l := map name (map snd (fold_left dedupeStep l []))).
  - apply Permutation_map. symmetry. apply sortWith_perm.
  - rewrite byName_names. apply dedupe_invariant.
Qed.

Lemma finalize_first `{Platform} (l : list OperatorRecord) (o : OperatorRecord) :
  In o (finalize l) -> truthy (name o) = true /\ firstOfName o l.
Proof.
  rewrite finalize_In. intros Hin.
  destruct (dedupe_invariant l) as [_ [Hent _]].
  destruct (Hent _ _ Hin) as [_ [? ?]]. now split.
Qed.

Lemma finalize_complete `{Platform} (l : list OperatorRecord) (o : OperatorRecord) :
  In o l -> truthy (name o) = true ->
  exists o1, In o1 (finalize l) /\ name o1 = name o.
Proof.
  intros Ho Ht.
  destruct (dedupe_invariant l) as [_ [Hent Hall]].
  specialize (Hall o Ho Ht). apply in_map_iff in Hall.
  destruct Hall as [[k o1] [E Hin]]. simpl in E. subst k.
  destruct (Hent _ _ Hin) as [E _].
  exists o1. split; [|now symmetry].
  apply finalize_In. now rewrite <- E.
Qed.


Lemma codeUnitCompare_total (a b : jsstring) :
  sortsBefore codeUnitCompare a b \/ sortsBefore codeUnitCompare b a.
Proof.
  unfold sortsBefore. rewrite !codeUnitCompare_le. apply leb_total.
Qed.

Lemma codeUnitCompare_trans : Relations.Relation_Definitions.transitive _
  (sortsBefore codeUnitCompare).
Proof.
  intros a b c. unfold sortsBefore. rewrite !codeUnitCompare_le.
  apply leb_trans.
Qed.

Lemma urls_sorted `{Platform} :
  StronglySorted (sortsBefore codeUnitCompare) urls.
Proof.
  apply Sorted_StronglySorted; [exact codeUnitCompare_trans|].
  apply sortWith_sorted, codeUnitCompare_total.
Qed.

(** Records come out of the parsing loop in the order of their URLs. *)
Lemma sources_in_order `{Platform} (R : jsstring -> jsstring -> Prop)
  (us : list jsstring) :
  StronglySorted R us ->
  forall l1 o l2, flat_map parsed us = l1 ++ o :: l2 ->
  forall o', In o' l2 ->
  exists u u', source o = JString u /\ source o' = JString u' /\ R u u'.
Proof.
  induction 1 as [|u us Hs IH Hu]; intros l1 o l2 E o' Ho'.
  - destruct l1; discriminate.
  - simpl in E.
    destruct (parsed u) as [|r rest] eqn:Ep.
    + simpl in E. eauto.
    + assert (Hr : In r (parsed u)) by (rewrite Ep; now left).
      destruct (parsed_source u r Hr) as [Hsrc E1].
      rewrite Ep in E1. injection E1 as ->. simpl in E.
      destruct l1 as [|a l1]; simpl in E.
      * injection E as <- <-.
        apply in_flat_map in Ho'. destruct Ho' as [u' [Hu' Hin]].
        exists u, u'. split; [exact Hsrc|]. split.
        -- now apply parsed_source.
        -- rewrite Forall_forall in Hu. now apply Hu.
      * injection E as _ E. eauto.
Qed.

(* ================================================================== *)
(** ** The claims about the records and the final collection          *)
(* ================================================================== *)

Lemma final_wellFormed `{Platform} (o : OperatorRecord) :
  In o final -> wellFormed o.
Proof.
  intros Ho. apply finalize_first in Ho. destruct Ho as [_ [l1 [l2 [E _]]]].
  assert (Hin : In o operators) by (rewrite E; apply in_elt).
  apply operators_origin in Hin. destruct Hin as [u [_ [_ Hp]]].
  apply (parsed_wellFormed u). rewrite Hp. now left.
Qed.

(** C1, where the code departs from it.  On a page whose rarity text
    is a run of 310 digits, [Number] of the run is [Infinity];
    [rarity || ""] keeps it, so the record of the parser and of the
    final array holds a number, but the file that is written holds
    [null] for the rarity of that record. *)
Theorem rarity_overflow_written_as_null :
  Page.rarityRaw (H := Fixture.wikiOverflow) Fixture.overflow
    = repeat 57%N 310 /\
  fst (@parseOperatorPage Fixture.wikiOverflow Fixture.urlTexas)
    = Some (@pageRecord Fixture.wikiOverflow Fixture.overflow Fixture.urlTexas) /\
  rarity (@pageRecord Fixture.wikiOverflow Fixture.overflow Fixture.urlTexas)
    = JNumber Infinity /\
  fst (@main Fixture.wikiOverflow)
    = [ @pageRecord Fixture.wikiOverflow Fixture.exusiai Fixture.urlExusiai;
        @pageRecord Fixture.wikiOverflow Fixture.overflow Fixture.urlTexas ] /\
  @operatorsJson Fixture.wikiOverflow
    = JsonArray
        [ recordJson (@pageRecord Fixture.wikiOverflow Fixture.exusiai
                        Fixture.urlExusiai);
          recordJson (@pageRecord Fixture.wikiOverflow Fixture.overflow
                        Fixture.urlTexas) ] /\
  jsonField "rarity"
    (recordJson (@pageRecord Fixture.wikiOverflow Fixture.overflow
                   Fixture.urlTexas))
    = Some JsonNull.
Proof.
  repeat split; vm_compute; reflexivity.
Qed.

(** X19.  Every record the page parser returns, and every record of
    the array [main] serialises, is well formed in memory: name,
    gender, class, archetype, faction, race, region,
    release.date_global, release.event_name, image.portrait,
    image.full and source hold strings (never [undefined] or [null]),
    and rarity holds a number or the empty string. *)
Theorem records_wellFormed `{Platform} :
  (forall opUrl o, fst (parseOperatorPage opUrl) = Some o -> wellFormed o) /\
  (forall o, In o (fst main) -> wellFormed o).
Proof.
  split; [|exact final_wellFormed].
  intros opUrl o E. apply (parsed_wellFormed opUrl).
  unfold parsed. rewrite E. now left.
Qed.

Lemma records_wellFormed_witness :
  In (@pageRecord Fixture.wiki Fixture.texas Fixture.urlTexas)
     (fst (@main Fixture.wiki)) /\
  wellFormed (@pageRecord Fixture.wiki Fixture.texas Fixture.urlTexas).
Proof.
  assert (Hin : In (@pageRecord Fixture.wiki Fixture.texas Fixture.urlTexas)
                   (fst (@main Fixture.wiki))).
  { vm_compute. right. left. reflexivity. }
  split; [exact Hin|].
  exact (proj2 (@records_wellFormed Fixture.wiki) _ Hin).
Defined.

(** C2.  The names of the final collection are pairwise different.
    Each of its records has a non-empty name and is the first parsed
    record with that name; any other parsed record with the same name
    comes from a URL that is strictly later in code-unit order.  Every
    non-empty name among the parsed records is kept by one record, and
    a parsed record with an empty name is not in the final collection. *)
Theorem final_dedup_first_wins `{Platform} :
  NoDup (map name final) /\
  (forall o, In o final ->
     truthy (name o) = true /\ In o operators /\ firstOfName o operators /\
     forall o', In o' operators -> name o' = name o -> o' <> o ->
       exists u u', source o = JString u /\ source o' = JString u' /\
                    JsString.leb u u' = true /\ u <> u') /\
  (forall o, In o operators -> truthy (name o) = true ->
     exists o1, In o1 final /\ name o1 = name o) /\
  (forall o, In o operators -> name o = JString [] -> ~ In o final).
Proof.
  split; [apply finalize_names_NoDup|]. split; [|split].
  - intros o Ho. destruct (finalize_first _ _ Ho) as [Ht Hf].
    split; [exact Ht|].
    assert (Hin : In o operators).
    { destruct Hf as [l1 [l2 [E _]]]. rewrite E. apply in_elt. }
    split; [exact Hin|]. split; [exact Hf|].
    intros o' Ho' En Hne.
    destruct Hf as [l1 [l2 [E Hl1]]].
    assert (Hl2 : In o' l2).
    { rewrite E in Ho'. apply in_app_or in Ho'.
      destruct Ho' as [Ho' | [Ho' | Ho']]; [|congruence | exact Ho'].
      exfalso. now apply (Hl1 o'). }
    rewrite operators_parsed in E.
    destruct (sources_in_order urls_sorted _ _ _ E _ Hl2)
      as [u [u' [Hu [Hu' Hle]]]].
    exists u, u'. split; [exact Hu|]. split; [exact Hu'|].
    split; [now apply codeUnitCompare_le|].
    intros ->. apply Hne.
    apply operators_origin in Hin. destruct Hin as [v [_ [Hv Hpv]]].
    apply operators_origin in Ho'. destruct Ho' as [v' [_ [Hv' Hpv']]].
    assert (v = v') by congruence. subst v'. congruence.
  - intros o Ho Ht. now apply finalize_complete.
  - intros o _ En Hin. apply finalize_first in Hin.
    destruct Hin as [Ht _]. rewrite En in Ht. discriminate.
Qed.

Lemma byNameOrder_total `{P : Platform} `{!ConsistentCollation P}
  (a b : OperatorRecord) :
  sortsBefore byNameOrder a b \/ sortsBefore byNameOrder b a.
Proof.
  unfold sortsBefore, byNameOrder.
  destruct (name a), (name b); try (left; lia).
  apply collation_total.
Qed.

Lemma names_sorted `{P : Platform} (l : list OperatorRecord) :
  Forall (fun o => isString (name o)) l ->
  Sorted (sortsBefore byNameOrder) l ->
  exists ns, map name l = map JString ns /\
             Sorted (sortsBefore localeCompare) ns.
Proof.
  induction 1 as [|o l [s Hs] Hl IH]; intros Hsorted.
  - exists []. split; [reflexivity | constructor].
  - inversion Hsorted as [|? ? Hsl Hhd]; subst.
    destruct (IH Hsl) as [ns [En Hns]].
    exists (s :: ns). split; [simpl; now rewrite Hs, En|].
    constructor; [exact Hns|].
    destruct Hhd as [|o2 l2 Ho2]; destruct ns as [|s2 ns];
      try discriminate; constructor.
    injection En as E2 _.
    unfold sortsBefore, byNameOrder in Ho2. now rewrite Hs, E2 in Ho2.
Qed.

Lemma collation_transitive `{P : Platform} `{!ConsistentCollation P} :
  Relations.Relation_Definitions.transitive _ (sortsBefore localeCompare).
Proof. intros x y z. apply collation_trans. Qed.

(** C3.  With a consistent [localeCompare], the names of the final
    collection are strings in non-decreasing order: each name compares
    less than or equal to every later one. *)
Theorem final_sorted_by_name `{P : Platform} `{!ConsistentCollation P} :
  exists ns, map name final = map JString ns /\
             StronglySorted (sortsBefore localeCompare) ns.
Proof.
  destruct (names_sorted (l := final)) as [ns [En Hns]].
  - apply Forall_forall. intros o Ho.
    now destruct (final_wellFormed o Ho) as [Hn _].
  - apply sortWith_sorted. intros a b. apply byNameOrder_total.
  - exists ns. split; [exact En|].
    apply Sorted_StronglySorted; [exact collation_transitive | exact Hns].
Qed.

Lemma wiki_collation : ConsistentCollation Fixture.wiki.
Proof.
  split; simpl.
  - intros x y. rewrite !codeUnitCompare_le. apply leb_total.
  - intros x y z. rewrite !codeUnitCompare_le. apply leb_trans.
Qed.

Lemma final_sorted_by_name_witness :
  exists ns, map name (@final Fixture.wiki) = map JString ns /\
             StronglySorted (sortsBefore (@localeCompare Fixture.wiki)) ns.
Proof. exact (@final_sorted_by_name Fixture.wiki wiki_collation). Defined.

Lemma final_dedup_first_wins_witness :
  let kept := @pageRecord Fixture.wikiSameName Fixture.texasAgain Fixture.urlExusiai in
  let dropped := @pageRecord Fixture.wikiSameName Fixture.texas Fixture.urlTexas in
  In kept (@final Fixture.wikiSameName) /\
  In dropped (@operators Fixture.wikiSameName) /\
  name dropped = name kept /\ dropped <> kept /\
  exists u u', source kept = JString u /\ source dropped = JString u' /\
               JsString.leb u u' = true /\ u <> u'.
Proof.
  intros kept dropped.
  assert (Hk : In kept (@final Fixture.wikiSameName))
    by (vm_compute; left; reflexivity).
  assert (Hd : In dropped (@operators Fixture.wikiSameName))
    by (vm_compute; right; left; reflexivity).
  assert (En : name dropped = name kept) by reflexivity.
  assert (Hne : dropped <> kept)
    by (intros E; apply (f_equal class) in E; vm_compute in E; discriminate).
  repeat split; try assumption.
  destruct (proj1 (proj2 (@final_dedup_first_wins Fixture.wikiSameName)) kept Hk)
    as [_ [_ [_ Hlater]]].
  exact (Hlater dropped Hd En Hne).
Defined.

(* ================================================================== *)
(** ** Release text, images and rarity                                 *)
(* ================================================================== *)




(** C5, as the code has it.  When the release text of a page is
    "Released: 2020-05-14 duringIc3 Blazing Summer", the record has
    release.date_global "2020-05-14" and release.event_name
    "Released: duringIc3 Blazing Summer": the date is removed and the
    two spaces around it collapse into one; no space is inserted. *)
Theorem release_iso_date `{Platform} (doc : document) (opUrl : jsstring) :
  Page.releaseRaw doc = js "Released: 2020-05-14 duringIc3 Blazing Summer" ->
  date_global (release (pageRecord doc opUrl)) = JString (js "2020-05-14") /\
  event_name (release (pageRecord doc opUrl))
    = JString (js "Released: duringIc3 Blazing Summer").
Proof.
  intros E. unfold pageRecord; simpl.
  unfold Page.date_global, Page.event_name. rewrite E.
  split; reflexivity.
Qed.

Lemma release_iso_date_witness :
  Page.releaseRaw (H := Fixture.wiki) Fixture.exusiai
    = js "Released: 2020-05-14 duringIc3 Blazing Summer" /\
  date_global (release (@pageRecord Fixture.wiki Fixture.exusiai Fixture.urlExusiai))
    = JString (js "2020-05-14") /\
  event_name (release (@pageRecord Fixture.wiki Fixture.exusiai Fixture.urlExusiai))
    = JString (js "Released: duringIc3 Blazing Summer").
Proof.
  split; [reflexivity|].
  apply (@release_iso_date Fixture.wiki). reflexivity.
Defined.

(** C5 as stated fails: the event name keeps "duringIc3" as one word. *)
Lemma release_iso_date_counterexample :
  ~ (forall (P : Platform) (doc : document) (opUrl : jsstring),
       @Page.releaseRaw P doc
         = js "Released: 2020-05-14 duringIc3 Blazing Summer" ->
       date_global (release (pageRecord doc opUrl)) = JString (js "2020-05-14") /\
       event_name (release (pageRecord doc opUrl))
         = JString (js "Released: during Ic3 Blazing Summer")).
Proof.
  intros Hclaim.
  destruct (Hclaim Fixture.wiki Fixture.exusiai Fixture.urlExusiai eq_refl)
    as [_ E].
  vm_compute in E. discriminate E.
Qed.

Lemma absolute_protocol_relative (s : jsstring) :
  JsString.startsWith (js "//") s = true ->
  Page.absolute (JString s) = JString (js "https:" ++ s).
Proof.
  intros E. unfold Page.absolute.
  assert (Hne : JsString.nonempty s = true) by (destruct s; [discriminate | reflexivity]).
  rewrite Hne, E. reflexivity.
Qed.

Lemma absolute_root_relative (s : jsstring) :
  JsString.startsWith (js "/") s = true ->
  JsString.startsWith (js "//") s = false ->
  Page.absolute (JString s) = JString (siteRoot ++ s).
Proof.
  intros E1 E2. unfold Page.absolute.
  assert (Hne : JsString.nonempty s = true) by (destruct s; [discriminate | reflexivity]).
  rewrite Hne, E2. cbn [andb]. now rewrite Hne, E1.
Qed.

Lemma absolute_unchanged (s : jsstring) :
  JsString.startsWith (js "/") s = false ->
  Page.absolute (JString s) = JString s.
Proof.
  intros E1.
  assert (E2 : JsString.startsWith (js "//") s = false).
  { destruct (JsString.startsWith (js "//") s) eqn:E; [|reflexivity].
    apply (startsWith_app (js "/") (js "/")) in E. congruence. }
  unfold Page.absolute. rewrite E2, andb_false_r. now rewrite E1, andb_false_r.
Qed.

(** C8, as the code has it.  The image sources are rewritten by two
    prefix rules only: a source that starts with "//" gets "https:" in
    front, any other source that starts with "/" gets the site origin
    in front, and a source that does not start with "/" is left as it
    is; the record holds the tidied result.  So a portrait or full
    image found as "//example.com/img.png" is recorded as
    "https://example.com/img.png", and one found as "/wiki/img.png" as
    "https://arknights.wiki.gg/wiki/img.png". *)
Theorem image_urls_absolute `{Platform} (doc : document) (opUrl : jsstring) :
  (forall s, JsString.startsWith (js "//") s = true ->
     Page.absolute (JString s) = JString (js "https:" ++ s)) /\
  (forall s, JsString.startsWith (js "/") s = true ->
     JsString.startsWith (js "//") s = false ->
     Page.absolute (JString s) = JString (js "https://arknights.wiki.gg" ++ s)) /\
  (forall s, JsString.startsWith (js "/") s = false ->
     Page.absolute (JString s) = JString s) /\
  portrait (image (pageRecord doc opUrl))
    = Page.tidy (Page.absolute (Page.portrait0 doc)) /\
  full (image (pageRecord doc opUrl))
    = Page.tidy (Page.absolute (Page.fullImage0 doc)) /\
  (Page.portrait0 doc = JString (js "//example.com/img.png") ->
     portrait (image (pageRecord doc opUrl))
       = JString (js "https://example.com/img.png")) /\
  (Page.portrait0 doc = JString (js "/wiki/img.png") ->
     portrait (image (pageRecord doc opUrl))
       = JString (js "https://arknights.wiki.gg/wiki/img.png")) /\
  (Page.fullImage0 doc = JString (js "//example.com/img.png") ->
     full (image (pageRecord doc opUrl))
       = JString (js "https://example.com/img.png")) /\
  (Page.fullImage0 doc = JString (js "/wiki/img.png") ->
     full (image (pageRecord doc opUrl))
       = JString (js "https://arknights.wiki.gg/wiki/img.png")).
Proof.
  split; [exact absolute_protocol_relative|].
  split; [exact absolute_root_relative|].
  split; [exact absolute_unchanged|].
  unfold pageRecord, Page.portrait, Page.fullImage; simpl.
  split; [reflexivity|]. split; [reflexivity|].
  repeat split; intros E; rewrite E; reflexivity.
Qed.

Lemma image_urls_absolute_witness :
  Page.portrait0 Fixture.texas = JString (js "//example.com/img.png") /\
  portrait (image (@pageRecord Fixture.wiki Fixture.texas Fixture.urlTexas))
    = JString (js "https://example.com/img.png") /\
  Page.fullImage0 Fixture.texas = JString (js "/wiki/img.png") /\
  full (image (@pageRecord Fixture.wiki Fixture.texas Fixture.urlTexas))
    = JString (js "https://arknights.wiki.gg/wiki/img.png") /\
  Page.portrait0 Fixture.exusiai = JString (js "/wiki/img.png") /\
  portrait (image (@pageRecord Fixture.wiki Fixture.exusiai Fixture.urlExusiai))
    = JString (js "https://arknights.wiki.gg/wiki/img.png") /\
  Page.fullImage0 Fixture.exusiai = JString (js "//example.com/img.png") /\
  full (image (@pageRecord Fixture.wiki Fixture.exusiai Fixture.urlExusiai))
    = JString (js "https://example.com/img.png") /\
  Page.absolute (JString (js "http://example.com/full.png"))
    = JString (js "http://example.com/full.png").
Proof.
  destruct (@image_urls_absolute Fixture.wiki Fixture.texas Fixture.urlTexas)
    as [_ [_ [Hsame [_ [_ [Ht1 [_ [_ Ht2]]]]]]]].
  destruct (@image_urls_absolute Fixture.wiki Fixture.exusiai Fixture.urlExusiai)
    as [_ [_ [_ [_ [_ [_ [He1 [He2 _]]]]]]]].
  split; [reflexivity|]. split; [apply Ht1; reflexivity|].
  split; [reflexivity|]. split; [apply Ht2; reflexivity|].
  split; [reflexivity|]. split; [apply He1; reflexivity|].
  split; [reflexivity|]. split; [apply He2; reflexivity|].
  apply Hsame. reflexivity.
Defined.

(** C8 as stated fails: a portrait given as "images/texas.png" is
    recorded as it is, not as an absolute https address. *)
Lemma image_urls_absolute_counterexample :
  ~ (forall (P : Platform) (doc : document) (opUrl s : jsstring),
       Page.portrait0 doc = JString s -> s <> [] ->
       exists r,
         portrait (image (pageRecord doc opUrl)) = JString r /\
         JsString.startsWith (js "https://") r = true).
Proof.
  intros Hclaim.
  destruct (Hclaim Fixture.wiki Fixture.relative Fixture.urlTexas
              (js "images/texas.png") eq_refl)
    as [r [E Hr]]; [discriminate|].
  vm_compute in E. injection E as <-. vm_compute in Hr. discriminate Hr.
Qed.

(** C10.  The rarity of a parsed record is a number other than zero
    or the empty string, never the number 0.  A rarity text without a
    star whose first run of digits has the value 0 gives the empty
    string, and so does a page without rarity text. *)
Theorem rarity_never_zero `{Platform} :
  (forall opUrl o, fst (parseOperatorPage opUrl) = Some o ->
     rarity o <> JNumber (Finite 0) /\
     ((exists x, x <> Finite 0 /\ rarity o = JNumber x) \/
      rarity o = JString [])) /\
  (forall doc opUrl ds,
     JsString.countStars (Page.rarityRaw doc) = 0%nat ->
     JsString.matchDigits (Page.rarityRaw doc) = Some ds ->
     JsString.decimalValue ds = 0%N ->
     rarity (pageRecord doc opUrl) = JString []) /\
  (forall doc opUrl,
     Page.rarityRaw doc = [] -> rarity (pageRecord doc opUrl) = JString []).
Proof.
  split; [|split].
  - intros opUrl o E.
    assert (Ho : exists doc, rarity o = jsor (Page.rarityOf (Page.rarityRaw doc)) (JString [])).
    { destruct (parseOperatorPage_cases opUrl) as [[page [_ Ep]] | [m [_ Ep]]];
        rewrite Ep in E; simpl in E; [|discriminate].
      injection E as <-. now exists page. }
    destruct Ho as [doc ->].
    destruct (rarityOf_cases (Page.rarityRaw doc)) as [[n [Hn En]] | En];
      rewrite En.
    + split; [intros [= ->]; now apply Hn | left; now exists n].
    + split; [discriminate | now right].
  - intros doc opUrl ds Hs Hd Hz. unfold pageRecord; simpl.
    unfold Page.rarity, Page.rarityOf. rewrite Hs, Hd, Hz. reflexivity.
  - intros doc opUrl E. unfold pageRecord; simpl.
    unfold Page.rarity. rewrite E. reflexivity.
Qed.

Lemma rarity_never_zero_witness :
  Page.rarityRaw (H := Fixture.wiki) Fixture.exusiai = js "Tier 0" /\
  rarity (@pageRecord Fixture.wiki Fixture.exusiai Fixture.urlExusiai) = JString [] /\
  Page.rarityRaw (H := Fixture.wiki) Fixture.bare = [] /\
  rarity (@pageRecord Fixture.wiki Fixture.bare Fixture.urlTexas) = JString [] /\
  rarity (@pageRecord Fixture.wiki Fixture.texas Fixture.urlTexas)
    <> JNumber (Finite 0).
Proof.
  destruct (@rarity_never_zero Fixture.wiki) as [Hall [Hzero Hnone]].
  split; [reflexivity|].
  split; [apply (Hzero Fixture.exusiai Fixture.urlExusiai (js "0")); reflexivity|].
  split; [reflexivity|].
  split; [apply Hnone; reflexivity|].
  apply (Hall Fixture.urlTexas). reflexivity.
Defined.

(* ================================================================== *)
(** ** The field extractor                                             *)
(* ================================================================== *)

(** C6.  When the first [.pi-data] element whose label is the wanted
    one has a value with non-empty trimmed text, [extractField]
    returns that text, whatever the later attempts would find; more
    generally the result is the value of the first attempt whenever
    that attempt returns.  When none of the four attempts returns, the
    result is the empty string. *)
Theorem extractField_short_circuit `{Platform} (doc : document) (label : jsstring) :
  (forall pi others val,
     filter (labelled label) (select (on (hasClass (js "pi-data"))) doc)
       = pi :: others ->
     JsString.trim (text (find (on (hasClass (js "pi-data-value"))) [pi])) = val ->
     val <> [] ->
     strategy1 doc label = Some val /\ extractField doc label = val) /\
  (forall val, strategy1 doc label = Some val ->
     val <> [] /\ extractField doc label = val) /\
  (strategy1 doc label = None -> strategy2 doc label = None ->
   strategy3 doc label = None -> strategy4 doc label = None ->
   extractField doc label = []).
Proof.
  split; [|split].
  - intros pi others val Hsel Hval Hne.
    assert (E : strategy1 doc label = Some val).
    { unfold strategy1. rewrite Hsel. simpl. rewrite app_nil_r.
      unfold find in Hval; simpl in Hval; rewrite app_nil_r in Hval.
      rewrite Hval. destruct val; [contradiction | reflexivity]. }
    split; [exact E|]. unfold extractField. now rewrite E.
  - intros val E. split.
    + unfold strategy1 in E.
      destruct (nonempty _) in E; [|discriminate].
      destruct (JsString.trim _) eqn:Et in E; simpl in E; [discriminate|].
      injection E as <-. discriminate.
    + unfold extractField. now rewrite E.
  - intros E1 E2 E3 E4. unfold extractField. now rewrite E1, E2, E3, E4.
Qed.

Lemma extractField_short_circuit_witness :
  @strategy1 Fixture.wiki Fixture.rigged (js "Class") = Some (js "Guard") /\
  @strategy2 Fixture.wiki Fixture.rigged (js "Class") = Some (js "second") /\
  @strategy3 Fixture.wiki Fixture.rigged (js "Class") = Some (js "third") /\
  @strategy4 Fixture.wiki Fixture.rigged (js "Class") = Some (js "fourth") /\
  @extractField Fixture.wiki Fixture.rigged (js "Class") = js "Guard" /\
  @extractField Fixture.wiki Fixture.riggedNoRow (js "Class") = js "second" /\
  @extractField Fixture.wiki Fixture.rigged (js "Race") = [].
Proof.
  destruct (@extractField_short_circuit Fixture.wiki Fixture.rigged (js "Class"))
    as [_ [Hfirst _]].
  destruct (@extractField_short_circuit Fixture.wiki Fixture.rigged (js "Race"))
    as [_ [_ Hnone]].
  split; [reflexivity|]. split; [reflexivity|].
  split; [reflexivity|]. split; [reflexivity|].
  split; [apply (Hfirst (js "Guard")); reflexivity|].
  split; [reflexivity|].
  apply Hnone; reflexivity.
Defined.

(* ================================================================== *)
(** ** The listing crawler                                             *)
(* ================================================================== *)

Lemma setAdd_In (x u : jsstring) (s : list jsstring) :
  In u (setAdd x s) <-> u = x \/ In u s.
Proof.
  unfold setAdd. destruct (existsb (JsString.eqb x) s) eqn:E.
  - split; [now right|]. intros [-> | Hin]; [|exact Hin].
    apply existsb_exists in E. destruct E as [y [Hy Exy]].
    apply eqb_spec in Exy. now subst y.
  - rewrite in_app_iff; simpl. intuition congruence.
Qed.

Lemma contentLink_href (prefix : jsstring) (doc : document) (el : element) :
  In el (select (contentLink prefix) doc) ->
  exists h, attr (js "href") [el] = JString h /\
            JsString.nonempty prefix = true /\
            JsString.startsWith prefix h = true.
Proof.
  unfold select. rewrite filter_In. intros [_ E].
  unfold contentLink, inside in E.
  apply andb_true_iff in E. destruct E as [E _].
  apply andb_true_iff in E. destruct E as [_ E].
  unfold attrStartsWith in E. unfold attr.
  destruct (attribute (js "href") (self el)) as [h|]; [|discriminate].
  apply andb_true_iff in E. destruct E as [E1 E2]. now exists h.
Qed.

Lemma startsWith_nonempty (p h : jsstring) :
  JsString.nonempty p = true -> JsString.startsWith p h = true ->
  JsString.nonempty h = true.
Proof. destruct p, h; simpl; congruence. Qed.

Lemma addFallbackLink_accepts `{Platform} (links : list jsstring)
  (el : element) (h : jsstring) :
  attr (js "href") [el] = JString h -> JsString.nonempty h = true ->
  addFallbackLink links el =
    if fallbackAccepts h (JsString.trim (text [el]))
    then setAdd (URL_href h) links else links.
Proof.
  intros E Hne. unfold addFallbackLink, fallbackAccepts. rewrite E, Hne.
  cbn [negb].
  destruct (JsString.includes colon h); [reflexivity|].
  destruct (endsInOperator h); reflexivity.
Qed.

Lemma addFallbackLink_keeps `{Platform} (links : list jsstring)
  (el : element) (u : jsstring) :
  In u links -> In u (addFallbackLink links el).
Proof.
  intros Hu. unfold addFallbackLink.
  repeat match goal with
         | |- context [match ?c with _ => _ end] => destruct c
         end; try exact Hu; apply setAdd_In; now right.
Qed.

Lemma fallback_fold_keeps `{Platform} (l : list element)
  (links : list jsstring) (u : jsstring) :
  In u links -> In u (fold_left addFallbackLink l links).
Proof.
  revert links; induction l as [|el l IH]; intros links Hu; simpl;
    [exact Hu|].
  apply IH. now apply addFallbackLink_keeps.
Qed.

(** Where a collected link comes from. *)
Lemma listingLinks_origin `{Platform} (doc : document) (u : jsstring) :
  In u (listingLinks doc) ->
  exists el h,
    attr (js "href") [el] = JString h /\ u = URL_href h /\
    JsString.startsWith (js "/wiki/") h = true /\
    JsString.includes colon h = false /\
    (In el (select (contentLink (js "/wiki/Operator")) doc) \/
     In el (select (contentLink (js "/wiki/")) doc) /\
     fallbackAccepts h (JsString.trim (text [el])) = true).
Proof.
  revert u. unfold listingLinks.
  apply fold_left_invariant.
  - apply fold_left_invariant; [intros u []|].
    intros links el Hel Hinv u.
    destruct (contentLink_href _ _ _ Hel) as [h [Eh [Hp Hs]]].
    unfold addOperatorLink. rewrite Eh.
    destruct (JsString.nonempty h && negb (JsString.includes colon h)) eqn:Ec;
      [|apply Hinv].
    rewrite setAdd_In. intros [-> | Hu]; [|now apply Hinv].
    apply andb_true_iff in Ec. destruct Ec as [_ Ec].
    apply negb_true_iff in Ec.
    exists el, h. repeat split; auto.
    apply (startsWith_app (js "/wiki/") (js "Operator")). exact Hs.
  - intros links el Hel Hinv u.
    destruct (contentLink_href _ _ _ Hel) as [h [Eh [Hp Hs]]].
    rewrite (addFallbackLink_accepts links el Eh (startsWith_nonempty _ _ Hp Hs)).
    destruct (fallbackAccepts h (JsString.trim (text [el]))) eqn:Ea;
      [|apply Hinv].
    rewrite setAdd_In. intros [-> | Hu]; [|now apply Hinv].
    exists el, h. repeat split; auto.
    unfold fallbackAccepts in Ea.
    repeat (apply andb_true_iff in Ea; destruct Ea as [Ea _]).
    now apply negb_true_iff in Ea.
Qed.

Lemma wiki_urls : RootRelativeUrls Fixture.wiki.
Proof.
  split; simpl. intros h Hh. exists h. split; [reflexivity|].
  split; [|tauto].
  apply (startsWith_app (js "/") (js "wiki/")). exact Hh.
Qed.

Lemma listing_returned `{Platform} (listPageUrl : jsstring)
  (links : list jsstring) :
  fetchOperatorLinksFromListing listPageUrl = Returned links ->
  exists page doc,
    fetchHtml listPageUrl = Returned page /\
    cheerio_load page = Returned doc /\ links = listingLinks doc.
Proof.
  unfold fetchOperatorLinksFromListing.
  destruct (fetchHtml listPageUrl) as [page|m]; [|discriminate].
  destruct (cheerio_load page) as [doc|m] eqn:El; [|discriminate].
  intros [= <-]. now exists page, doc.
Qed.

Lemma listingLinks_sitePage `{P : Platform} `{!RootRelativeUrls P}
  (doc : document) (u : jsstring) :
  In u (listingLinks doc) -> sitePage u.
Proof.
  intros Hu.
  destruct (listingLinks_origin doc u Hu) as [el [h [_ [-> [Hs [Hc _]]]]]].
  destruct (URL_href_root_relative h Hs) as [rest [E [Hr Hrest]]].
  exists rest. auto.
Qed.

Lemma listingLinks_accepted `{Platform} (doc : document) (el : element)
  (h : jsstring) :
  In el (select (contentLink (js "/wiki/")) doc) ->
  attr (js "href") [el] = JString h ->
  fallbackAccepts h (JsString.trim (text [el])) = true ->
  In (URL_href h) (listingLinks doc).
Proof.
  intros Hel Eh Ea.
  destruct (contentLink_href _ _ _ Hel) as [h' [Eh' [Hp Hs]]].
  assert (h' = h) by congruence. subst h'.
  unfold listingLinks.
  destruct (in_split _ _ Hel) as [l1 [l2 ->]].
  rewrite fold_left_app. simpl.
  apply fallback_fold_keeps.
  rewrite (addFallbackLink_accepts _ el Eh (startsWith_nonempty _ _ Hp Hs)), Ea.
  apply setAdd_In. now left.
Qed.

(** C9, as the code has it.  The second heuristic keeps a content link
    whose address starts with "/wiki/" exactly when the address has no
    colon and does not end in "Operator" or "Operators", and the
    trimmed link text is non-empty, shorter than 40 code units and has
    a character in A-Z, a-z or U+00C0..U+024F.  A kept link is entered
    as [new URL(h, site).href].  Every collected URL is the site
    origin followed by a path that starts with "/" and has no colon. *)
Theorem listing_fallback_heuristic `{P : Platform} `{!RootRelativeUrls P} :
  (forall doc el,
     In el (select (contentLink (js "/wiki/")) doc) ->
     exists h,
       attr (js "href") [el] = JString h /\
       JsString.startsWith (js "/wiki/") h = true /\
       forall links,
         addFallbackLink links el =
           if fallbackAccepts h (JsString.trim (text [el]))
           then setAdd (URL_href h) links else links) /\
  (forall doc el h,
     In el (select (contentLink (js "/wiki/")) doc) ->
     attr (js "href") [el] = JString h ->
     fallbackAccepts h (JsString.trim (text [el])) = true ->
     In (URL_href h) (listingLinks doc)) /\
  (forall doc u, In u (listingLinks doc) -> sitePage u) /\
  (forall listPageUrl links,
     fetchOperatorLinksFromListing listPageUrl = Returned links ->
     Forall sitePage links).
Proof.
  split; [|split; [|split]].
  - intros doc el Hel.
    destruct (contentLink_href _ _ _ Hel) as [h [Eh [Hp Hs]]].
    exists h. split; [exact Eh|]. split; [exact Hs|].
    intros links. apply addFallbackLink_accepts; [exact Eh|].
    exact (startsWith_nonempty _ _ Hp Hs).
  - intros doc el h. apply listingLinks_accepted.
  - intros doc u. apply listingLinks_sitePage.
  - intros listPageUrl links E.
    destruct (listing_returned _ E) as [page [doc [_ [_ ->]]]].
    apply Forall_forall. intros u. apply listingLinks_sitePage.
Qed.

Lemma listing_fallback_heuristic_witness :
  @fetchOperatorLinksFromListing Fixture.wiki Fixture.sixStars
    = Returned [Fixture.urlTexas; Fixture.urlLappland; Fixture.urlExusiai] /\
  Forall sitePage [Fixture.urlTexas; Fixture.urlLappland; Fixture.urlExusiai].
Proof.
  assert (E : @fetchOperatorLinksFromListing Fixture.wiki Fixture.sixStars
              = Returned [Fixture.urlTexas; Fixture.urlLappland; Fixture.urlExusiai])
    by reflexivity.
  split; [exact E|].
  exact (proj2 (proj2 (proj2 (@listing_fallback_heuristic Fixture.wiki wiki_urls)))
           _ _ E).
Defined.

(** C9 as stated fails: a link to "/wiki/Reserve_Operators" with the
    text "Reserve Operators" has no colon, is not the page
    "/wiki/Operators" and has a short text with letters, and yet it is
    not kept. *)
Lemma listing_fallback_counterexample :
  ~ (forall (P : Platform) (doc : document) (el : element) (h : jsstring),
       In el (select (contentLink (js "/wiki/")) doc) ->
       attr (js "href") [el] = JString h ->
       forall links,
         addFallbackLink links el =
           if fallbackAccepts_spec h (JsString.trim (text [el]))
           then setAdd (URL_href h) links else links).
Proof.
  intros Hclaim.
  specialize (Hclaim Fixture.wiki Fixture.reserves
                (hd Fixture.noElement
                    (select (contentLink (js "/wiki/")) Fixture.reserves))
                (js "/wiki/Reserve_Operators")).
  assert (Hin : In (hd Fixture.noElement
                      (select (contentLink (js "/wiki/")) Fixture.reserves))
                   (select (contentLink (js "/wiki/")) Fixture.reserves))
    by (vm_compute; left; reflexivity).
  specialize (Hclaim Hin eq_refl []).
  vm_compute in Hclaim. discriminate Hclaim.
Qed.

(* ================================================================== *)
(** ** Pages that cannot be fetched                                    *)
(* ================================================================== *)






(* ================================================================== *)
(** ** White space: trim and tidy                                      *)
(* ================================================================== *)

Lemma trimStart_split (s : jsstring) :
  exists w, s = w ++ JsString.trimStart s /\
            forallb JsString.isWhiteSpace w = true.
Proof.
  induction s as [|c s [w [E Hw]]]; simpl.
  - now exists [].
  - destruct (JsString.isWhiteSpace c) eqn:Ec.
    + exists (c :: w). simpl. rewrite Ec, Hw. split; [now f_equal | reflexivity].
    + now exists [].
Qed.

Lemma trimStart_solid (s : jsstring) : solidHead (JsString.trimStart s).
Proof.
  induction s as [|c s IH]; simpl; [exact I|].
  destruct (JsString.isWhiteSpace c) eqn:Ec; [exact IH | exact Ec].
Qed.

Lemma trimStart_fixed (s : jsstring) : solidHead s -> JsString.trimStart s = s.
Proof. destruct s as [|c s]; simpl; [reflexivity | now intros ->]. Qed.

Lemma trimStart_blank (s : jsstring) :
  forallb JsString.isWhiteSpace s = true -> JsString.trimStart s = [].
Proof.
  induction s as [|c s IH]; simpl; [reflexivity|].
  intros H. apply andb_true_iff in H. destruct H as [-> H]. now apply IH.
Qed.

Lemma forallb_rev {A : Type} (f : A -> bool) (l : list A) :
  forallb f (rev l) = forallb f l.
Proof.
  induction l as [|x l IH]; simpl; [reflexivity|].
  rewrite forallb_app, IH. simpl. rewrite andb_true_r. apply andb_comm.
Qed.

Lemma trimEnd_split (s : jsstring) :
  exists w, s = JsString.trimEnd s ++ w /\
            forallb JsString.isWhiteSpace w = true.
Proof.
  unfold JsString.trimEnd.
  destruct (trimStart_split (rev s)) as [w [E Hw]].
  exists (rev w). split; [|now rewrite forallb_rev].
  rewrite <- rev_app_distr, <- E. now rewrite rev_involutive.
Qed.

Lemma trimEnd_solid (s : jsstring) : solidHead (rev (JsString.trimEnd s)).
Proof.
  unfold JsString.trimEnd. rewrite rev_involutive. apply trimStart_solid.
Qed.

Lemma trimEnd_fixed (s : jsstring) :
  solidHead (rev s) -> JsString.trimEnd s = s.
Proof.
  intros H. unfold JsString.trimEnd.
  rewrite (trimStart_fixed _ H). apply rev_involutive.
Qed.

Lemma solidHead_prefix (a w : jsstring) :
  solidHead (a ++ w) -> solidHead a.
Proof. destruct a; simpl; auto. Qed.

Lemma trim_solid (s : jsstring) : solidEnds (JsString.trim s).
Proof.
  unfold JsString.trim. split; [|apply trimEnd_solid].
  destruct (trimEnd_split (JsString.trimStart s)) as [w [E _]].
  apply (solidHead_prefix _ w). rewrite <- E. apply trimStart_solid.
Qed.

Lemma trim_fixed (s : jsstring) : solidEnds s -> JsString.trim s = s.
Proof.
  intros [H1 H2]. unfold JsString.trim.
  rewrite (trimStart_fixed _ H1). now apply trimEnd_fixed.
Qed.

Lemma trim_blank (s : jsstring) :
  JsString.trim s = [] <-> forallb JsString.isWhiteSpace s = true.
Proof.
  unfold JsString.trim. split.
  - intros E.
    destruct (trimStart_split s) as [w1 [E1 H1]].
    destruct (trimEnd_split (JsString.trimStart s)) as [w2 [E2 H2]].
    rewrite E in E2. simpl in E2. rewrite E1, E2, forallb_app, H1, H2.
    reflexivity.
  - intros H. now rewrite (trimStart_blank _ H).
Qed.

Lemma solid_nonblank (s : jsstring) :
  solidEnds s -> s <> [] -> forallb JsString.isWhiteSpace s = false.
Proof.
  intros Hs Hne. destruct (forallb JsString.isWhiteSpace s) eqn:E; [|reflexivity].
  apply trim_blank in E. rewrite (trim_fixed Hs) in E. contradiction.
Qed.

Lemma spacedFrom_weaken (s : jsstring) :
  spacedFrom true s = true -> spacedFrom false s = true.
Proof.
  destruct s as [|c s]; simpl; [reflexivity|].
  destruct (JsString.isWhiteSpace c); [|auto].
  rewrite andb_false_r. discriminate.
Qed.

Lemma spacedFrom_any (b : bool) (s : jsstring) :
  spacedFrom b s = true -> spacedFrom false s = true.
Proof. destruct b; [apply spacedFrom_weaken | auto]. Qed.

Lemma spacedFrom_suffix (w s : jsstring) (b : bool) :
  spacedFrom b (w ++ s) = true -> spacedFrom false s = true.
Proof.
  revert b; induction w as [|c w IH]; intros b; simpl.
  - apply spacedFrom_any.
  - destruct (JsString.isWhiteSpace c).
    + intros H. apply andb_true_iff in H. destruct H as [_ H]. eauto.
    + eauto.
Qed.

Lemma spacedFrom_prefix (s w : jsstring) (b : bool) :
  spacedFrom b (s ++ w) = true -> spacedFrom b s = true.
Proof.
  revert b; induction s as [|c s IH]; intros b; simpl; [reflexivity|].
  destruct (JsString.isWhiteSpace c).
  - rewrite !andb_true_iff. intros [H1 H2]. split; [exact H1 | eauto].
  - eauto.
Qed.

Lemma collapseFrom_spaced (s : jsstring) (b : bool) :
  spacedFrom b (JsString.collapseFrom b s) = true.
Proof.
  revert b; induction s as [|c s IH]; intros b; simpl; [reflexivity|].
  destruct (JsString.isWhiteSpace c) eqn:Ec.
  - destruct b; [apply IH|]. simpl. apply IH.
  - simpl. rewrite Ec. apply IH.
Qed.

Lemma collapseFrom_fixed (s : jsstring) (b : bool) :
  spacedFrom b s = true -> JsString.collapseFrom b s = s.
Proof.
  revert b; induction s as [|c s IH]; intros b; simpl; [reflexivity|].
  destruct (JsString.isWhiteSpace c) eqn:Ec.
  - rewrite !andb_true_iff. intros [[Hc Hb] Hs].
    apply negb_true_iff in Hb. subst b. apply N.eqb_eq in Hc. subst c.
    now rewrite (IH true Hs).
  - intros Hs. now rewrite (IH false Hs).
Qed.

Lemma collapseFrom_nonblank (s : jsstring) (b : bool) :
  forallb JsString.isWhiteSpace s = false ->
  forallb JsString.isWhiteSpace (JsString.collapseFrom b s) = false.
Proof.
  revert b; induction s as [|c s IH]; intros b; simpl; [discriminate|].
  destruct (JsString.isWhiteSpace c) eqn:Ec; simpl.
  - intros H. destruct b; simpl; [now apply IH|].
    now rewrite (IH true H).
  - intros _. now rewrite Ec.
Qed.

Lemma trim_spaced (s : jsstring) (b : bool) :
  spacedFrom b s = true -> spacedFrom false (JsString.trim s) = true.
Proof.
  intros H. unfold JsString.trim.
  destruct (trimStart_split s) as [w1 [E1 _]].
  destruct (trimEnd_split (JsString.trimStart s)) as [w2 [E2 _]].
  rewrite E1 in H. apply spacedFrom_suffix in H.
  rewrite E2 in H. now apply spacedFrom_prefix in H.
Qed.

Lemma spaced_only_spaces (r : jsstring) (b : bool) :
  spacedFrom b r = true ->
  Forall (fun c => JsString.isWhiteSpace c = true -> c = 32%N) r.
Proof.
  revert b; induction r as [|c r IH]; intros b; simpl; [constructor|].
  destruct (JsString.isWhiteSpace c) eqn:Ec.
  - rewrite !andb_true_iff. intros [[Hc _] Hr].
    constructor; [intros _; now apply N.eqb_eq | eauto].
  - intros Hr. constructor; [congruence | eauto].
Qed.

Lemma spaced_no_double (r : jsstring) (b : bool) :
  spacedFrom b r = true -> JsString.includes [32%N; 32%N] r = false.
Proof.
  revert b; induction r as [|c r IH]; intros b H; [reflexivity|].
  change (JsString.includes [32%N; 32%N] (c :: r))
    with (JsString.startsWith [32%N; 32%N] (c :: r)
          || JsString.includes [32%N; 32%N] r).
  assert (Hr : exists b', spacedFrom b' r = true /\
                          (c = 32%N -> b' = true)).
  { simpl in H. destruct (JsString.isWhiteSpace c) eqn:Ec.
    - apply andb_true_iff in H. destruct H as [_ H]. now exists true.
    - exists false. split; [exact H|]. intros ->. discriminate Ec. }
  destruct Hr as [b' [Hr Hb']].
  rewrite (IH b' Hr), orb_false_r.
  change (JsString.startsWith [32%N; 32%N] (c :: r))
    with ((32 =? c)%N && JsString.startsWith [32%N] r).
  destruct (N.eqb_spec 32 c) as [<-|]; [|reflexivity].
  rewrite (Hb' eq_refl) in Hr.
  destruct r as [|d r]; [reflexivity|].
  change (JsString.startsWith [32%N] (d :: r)) with ((32 =? d)%N && true).
  destruct (N.eqb_spec 32 d) as [<-|]; [|reflexivity].
  simpl in Hr. discriminate Hr.
Qed.

Lemma tidy_of_string (s : jsstring) :
  exists r, Page.tidy (JString s) = JString r /\
            solidEnds r /\ spacedFrom false r = true.
Proof.
  unfold Page.tidy; simpl. destruct (JsString.nonempty s).
  - eexists. split; [reflexivity|]. split; [apply trim_solid|].
    apply (trim_spaced _ false). apply collapseFrom_spaced.
  - exists []. repeat split.
Qed.

Lemma tidy_fixed (r : jsstring) :
  solidEnds r -> spacedFrom false r = true ->
  Page.tidy (JString r) = JString r.
Proof.
  intros Hs Hr. unfold Page.tidy; simpl.
  destruct r as [|c r]; [reflexivity|]. simpl JsString.nonempty. cbv iota.
  unfold JsString.collapseSpaces. rewrite (collapseFrom_fixed _ _ Hr).
  now rewrite (trim_fixed Hs).
Qed.

(** X1.  On a string, [tidy] applied twice is [tidy] applied once,
    and the tidied form starts and ends with no white space, holds no
    white space but the space U+0020, and never two spaces in a row. *)
Theorem tidy_normal_form :
  (forall s, Page.tidy (Page.tidy (JString s)) = Page.tidy (JString s)) /\
  (forall s, exists r,
     Page.tidy (JString s) = JString r /\
     solidEnds r /\
     Forall (fun c => JsString.isWhiteSpace c = true -> c = 32%N) r /\
     JsString.includes (js "  ") r = false).
Proof.
  split.
  - intros s. destruct (tidy_of_string s) as [r [-> [Hs Hr]]].
    now apply tidy_fixed.
  - intros s. destruct (tidy_of_string s) as [r [E [Hs Hr]]].
    exists r. split; [exact E|]. split; [exact Hs|].
    split; [now apply (spaced_only_spaces _ false)|].
    now apply (spaced_no_double _ false).
Qed.

(* ================================================================== *)
(** ** What the field extractor returns                                *)
(* ================================================================== *)

Lemma returned_trimmed (x v : jsstring) :
  (if JsString.nonempty (JsString.trim x) then Some (JsString.trim x) else None)
    = Some v ->
  v <> [] /\ solidEnds v.
Proof.
  destruct (JsString.trim x) as [|c t] eqn:E; simpl; [discriminate|].
  intros [= <-]. split; [discriminate|]. rewrite <- E. apply trim_solid.
Qed.

Ltac through_guards H :=
  repeat match type of H with
         | (if nonempty ?s then _ else _) = Some _ =>
             destruct (nonempty s); [|discriminate H]
         end;
  exact (returned_trimmed _ H).

Lemma strategy1_trimmed `{Platform} (doc : document) (label v : jsstring) :
  strategy1 doc label = Some v -> v <> [] /\ solidEnds v.
Proof. unfold strategy1. intros E. through_guards E. Qed.

Lemma strategy2_trimmed `{Platform} (doc : document) (label v : jsstring) :
  strategy2 doc label = Some v -> v <> [] /\ solidEnds v.
Proof. unfold strategy2. intros E. through_guards E. Qed.

Lemma strategy3_trimmed `{Platform} (doc : document) (label v : jsstring) :
  strategy3 doc label = Some v -> v <> [] /\ solidEnds v.
Proof. unfold strategy3. intros E. through_guards E. Qed.

Lemma strategy4_trimmed `{Platform} (doc : document) (label v : jsstring) :
  strategy4 doc label = Some v -> v <> [] /\ solidEnds v.
Proof. unfold strategy4. intros E. through_guards E. Qed.

Lemma extractField_solid `{Platform} (doc : document) (label : jsstring) :
  solidEnds (extractField doc label).
Proof.
  unfold extractField.
  destruct (strategy1 doc label) eqn:E1; [now apply (strategy1_trimmed doc label)|].
  destruct (strategy2 doc label) eqn:E2; [now apply (strategy2_trimmed doc label)|].
  destruct (strategy3 doc label) eqn:E3; [now apply (strategy3_trimmed doc label)|].
  destruct (strategy4 doc label) eqn:E4; [now apply (strategy4_trimmed doc label)|].
  split; exact I.
Qed.

(** X2.  Whatever the page and the label, the text [extractField]
    returns is trimmed: trimming it again changes nothing, neither end
    is white space, and it is never made of white space only. *)
Theorem extractField_trimmed `{Platform} (doc : document) (label : jsstring) :
  JsString.trim (extractField doc label) = extractField doc label /\
  solidEnds (extractField doc label) /\
  (extractField doc label = [] \/
   forallb JsString.isWhiteSpace (extractField doc label) = false).
Proof.
  pose proof (extractField_solid doc label) as Hs.
  split; [now apply trim_fixed|]. split; [exact Hs|].
  destruct (extractField doc label) as [|c t] eqn:E; [now left | right].
  apply solid_nonblank; [exact Hs | discriminate].
Qed.

(* ================================================================== *)
(** ** The release date and the event name                             *)
(* ================================================================== *)

Lemma digitsPrefix_spec (n : nat) (s y : jsstring) :
  JsString.digitsPrefix n s = Some y ->
  length y = n /\ forallb JsString.isDigit y = true /\
  exists rest, s = y ++ rest.
Proof.
  revert s y; induction n as [|n IH]; intros s y; simpl.
  - intros [= <-]. repeat split. now exists s.
  - destruct s as [|c s]; [discriminate|].
    destruct (JsString.isDigit c) eqn:Ec; [|discriminate].
    destruct (JsString.digitsPrefix n s) as [y'|] eqn:E; [|discriminate].
    simpl. intros [= <-]. destruct (IH _ _ E) as [Hl [Hd [rest ->]]].
    simpl. rewrite Hl, Ec, Hd. repeat split. now exists rest.
Qed.

Lemma skipn_prefix (y rest : jsstring) : skipn (length y) (y ++ rest) = rest.
Proof. induction y; simpl; auto. Qed.

Lemma startsWith_includes (p s : jsstring) :
  JsString.startsWith p s = true -> JsString.includes p s = true.
Proof. intros H. destruct s; simpl in *; now rewrite H. Qed.

Lemma includes_tail (p s : jsstring) (c : N) :
  JsString.includes p s = true -> JsString.includes p (c :: s) = true.
Proof.
  intros H.
  change (JsString.includes p (c :: s))
    with (JsString.startsWith p (c :: s) || JsString.includes p s).
  rewrite H. apply orb_true_r.
Qed.

Ltac hyphen_only h H :=
  destruct h as [|h]; [discriminate H|];
  repeat (destruct h as [h|h|]; try discriminate H).

Lemma isoPrefix_spec (s d : jsstring) :
  JsString.isoPrefix s = Some d ->
  isoShaped d = true /\ JsString.startsWith d s = true.
Proof.
  unfold JsString.isoPrefix. intros H.
  destruct (JsString.digitsPrefix 4 s) as [y|] eqn:Ey; [|discriminate H].
  destruct (digitsPrefix_spec _ _ Ey) as [Ly [Dy [r1 ->]]].
  replace (skipn 4 (y ++ r1)) with r1 in H
    by (rewrite <- Ly; symmetry; apply skipn_prefix).
  destruct r1 as [|h1 s1]; [discriminate|].
  hyphen_only h1 H. cbv iota beta in H.
  destruct (JsString.digitsPrefix 2 s1) as [m|] eqn:Em; [|discriminate H].
  destruct (digitsPrefix_spec _ _ Em) as [Lm [Dm [r2 ->]]].
  replace (skipn 2 (m ++ r2)) with r2 in H
    by (rewrite <- Lm; symmetry; apply skipn_prefix).
  destruct r2 as [|h2 s2]; [discriminate|].
  hyphen_only h2 H. cbv iota beta in H.
  destruct (JsString.digitsPrefix 2 s2) as [dd|] eqn:Ed; [|discriminate H].
  destruct (digitsPrefix_spec _ _ Ed) as [Ld [Dd [r3 ->]]].
  injection H as <-.
  destruct y as [|y1 [|y2 [|y3 [|y4 [|]]]]]; try discriminate Ly.
  destruct m as [|m1 [|m2 [|]]]; try discriminate Lm.
  destruct dd as [|d1 [|d2 [|]]]; try discriminate Ld.
  split.
  - simpl in Dy, Dm, Dd.
    repeat match goal with
           | H : (_ && _) = true |- _ => apply andb_true_iff in H; destruct H
           end.
    simpl.
    repeat match goal with
           | H : JsString.isDigit _ = true |- _ => rewrite H; clear H
           end.
    reflexivity.
  - simpl. now rewrite !N.eqb_refl.
Qed.

Lemma matchIso_spec (s d : jsstring) :
  JsString.matchIso s = Some d ->
  isoShaped d = true /\ JsString.includes d s = true.
Proof.
  induction s as [|c s IH].
  - simpl. discriminate.
  - change (JsString.matchIso (c :: s))
      with (match JsString.isoPrefix (c :: s) with
            | Some d => Some d
            | None => JsString.matchIso s
            end).
    destruct (JsString.isoPrefix (c :: s)) eqn:E.
    + intros [= <-]. destruct (isoPrefix_spec _ E) as [H1 H2].
      split; [exact H1 | now apply startsWith_includes].
    + intros H. destruct (IH H) as [H1 H2].
      split; [exact H1 | now apply includes_tail].
Qed.

Lemma startsWith_digits (y rest : jsstring) :
  JsString.startsWith y (y ++ rest) = true.
Proof. apply startsWith_prefix. Qed.

Lemma matchYear_spec (s d : jsstring) :
  JsString.matchYear s = Some d ->
  yearShaped d = true /\ JsString.includes d s = true.
Proof.
  assert (Hp : forall s d, JsString.digitsPrefix 4 s = Some d ->
               yearShaped d = true /\ JsString.includes d s = true).
  { clear. intros s d E. destruct (digitsPrefix_spec _ _ E) as [L [D [rest ->]]].
    unfold yearShaped. rewrite L, D. split; [reflexivity|].
    apply startsWith_includes, startsWith_prefix. }
  induction s as [|c s IH].
  - simpl. discriminate.
  - change (JsString.matchYear (c :: s))
      with (match JsString.digitsPrefix 4 (c :: s) with
            | Some y => Some y
            | None => JsString.matchYear s
            end).
    destruct (JsString.digitsPrefix 4 (c :: s)) eqn:E.
    + intros [= <-]. now apply Hp.
    + intros H. destruct (IH H) as [H1 H2].
      split; [exact H1 | now apply includes_tail].
Qed.

Lemma dateOf_shape (raw : jsstring) :
  (Page.dateOf raw = [] \/ yearShaped (Page.dateOf raw) = true \/
   isoShaped (Page.dateOf raw) = true) /\
  JsString.includes (Page.dateOf raw) raw = true.
Proof.
  unfold Page.dateOf. destruct raw as [|c raw]; [split; [now left | reflexivity]|].
  cbn [JsString.nonempty].
  destruct (JsString.matchIso (c :: raw)) as [iso|] eqn:Ei.
  - destruct (matchIso_spec _ Ei). auto.
  - destruct (JsString.matchYear (c :: raw)) as [y|] eqn:Ey.
    + destruct (matchYear_spec _ Ey). auto.
    + split; [now left | reflexivity].
Qed.

Lemma startsWith_split (p s : jsstring) :
  JsString.startsWith p s = true -> exists rest, s = p ++ rest.
Proof.
  revert s; induction p as [|x p IH]; intros s; simpl.
  - now exists s.
  - destruct s as [|y s]; [discriminate|].
    rewrite andb_true_iff, N.eqb_eq. intros [-> H].
    destruct (IH _ H) as [rest ->]. now exists rest.
Qed.

Lemma digitsPrefix_complete (y rest : jsstring) :
  forallb JsString.isDigit y = true ->
  JsString.digitsPrefix (length y) (y ++ rest) = Some y.
Proof.
  induction y as [|c y IH]; simpl; [reflexivity|].
  rewrite andb_true_iff. intros [-> H]. now rewrite (IH H).
Qed.

Lemma matchYear_complete (s : jsstring) :
  JsString.matchYear s = None ->
  forall y, yearShaped y = true -> JsString.includes y s = false.
Proof.
  intros H y Hy. unfold yearShaped in Hy.
  apply andb_true_iff in Hy. destruct Hy as [Ly Dy]. apply Nat.eqb_eq in Ly.
  assert (Hs : forall t, JsString.digitsPrefix 4 t = None ->
                         JsString.startsWith y t = false).
  { clear H. intros t E. destruct (JsString.startsWith y t) eqn:Es; [|reflexivity].
    destruct (startsWith_split _ _ Es) as [rest ->].
    rewrite <- Ly, (digitsPrefix_complete _ rest Dy) in E. discriminate. }
  induction s as [|c s IH].
  - simpl. rewrite Hs; reflexivity.
  - change (JsString.matchYear (c :: s))
      with (match JsString.digitsPrefix 4 (c :: s) with
            | Some y => Some y
            | None => JsString.matchYear s
            end) in H.
    change (JsString.includes y (c :: s))
      with (JsString.startsWith y (c :: s) || JsString.includes y s).
    destruct (JsString.digitsPrefix 4 (c :: s)) eqn:E; [discriminate|].
    now rewrite (Hs _ E), (IH H).
Qed.

Lemma isoPrefix_complete (d rest : jsstring) :
  isoShaped d = true -> JsString.isoPrefix (d ++ rest) = Some d.
Proof.
  destruct d as [|y1 [|y2 [|y3 [|y4 [|h1 [|m1 [|m2 [|h2 [|d1 [|d2 [|]]]]]]]]]]];
    try discriminate.
  unfold isoShaped. cbn [forallb].
  rewrite !andb_true_iff, !N.eqb_eq.
  intros [[[Y1 [Y2 [Y3 [Y4 [M1 [M2 [D1 [D2 _]]]]]]]] ->] ->].
  unfold JsString.isoPrefix. cbn.
  now rewrite Y1, Y2, Y3, Y4, M1, M2, D1, D2.
Qed.

Lemma matchIso_complete (s : jsstring) :
  JsString.matchIso s = None ->
  forall d, isoShaped d = true -> JsString.includes d s = false.
Proof.
  intros H d Hd.
  assert (Hs : forall t, JsString.isoPrefix t = None ->
                         JsString.startsWith d t = false).
  { clear H. intros t E. destruct (JsString.startsWith d t) eqn:Es; [|reflexivity].
    destruct (startsWith_split _ _ Es) as [rest ->].
    rewrite (isoPrefix_complete _ rest Hd) in E. discriminate. }
  induction s as [|c s IH].
  - simpl. rewrite Hs; reflexivity.
  - change (JsString.matchIso (c :: s))
      with (match JsString.isoPrefix (c :: s) with
            | Some d => Some d
            | None => JsString.matchIso s
            end) in H.
    change (JsString.includes d (c :: s))
      with (JsString.startsWith d (c :: s) || JsString.includes d s).
    destruct (JsString.isoPrefix (c :: s)) eqn:E; [discriminate|].
    now rewrite (Hs _ E), (IH H).
Qed.

Lemma digit_solid (c : N) :
  JsString.isDigit c = true -> JsString.isWhiteSpace c = false.
Proof.
  unfold JsString.isDigit, JsString.isWhiteSpace.
  rewrite andb_true_iff, !N.leb_le. intros [H1 H2].
  repeat match goal with
         | |- context [(?a <=? ?b)%N] => destruct (N.leb_spec a b); try lia
         | |- context [(?a =? ?b)%N] => destruct (N.eqb_spec a b); try lia
         end; reflexivity.
Qed.

Lemma solid_text_tidy (d : jsstring) :
  forallb (fun c => negb (JsString.isWhiteSpace c)) d = true ->
  Page.tidy (JString d) = JString d.
Proof.
  intros H. apply tidy_fixed.
  - split.
    + destruct d as [|c d]; [exact I|]. simpl in *.
      apply andb_true_iff in H. destruct H as [H _]. now apply negb_true_iff.
    + rewrite <- forallb_rev in H. destruct (rev d) as [|c r]; [exact I|].
      simpl in *. apply andb_true_iff in H. destruct H as [H _].
      now apply negb_true_iff.
  - induction d as [|c d IH]; [reflexivity|]. simpl in *.
    apply andb_true_iff in H. destruct H as [Hc H].
    apply negb_true_iff in Hc. rewrite Hc. now apply IH.
Qed.

Lemma date_shapes_solid (d : jsstring) :
  d = [] \/ yearShaped d = true \/ isoShaped d = true ->
  forallb (fun c => negb (JsString.isWhiteSpace c)) d = true.
Proof.
  intros [-> | [H | H]]; [reflexivity | |].
  - unfold yearShaped in H. apply andb_true_iff in H. destruct H as [_ H].
    induction d as [|c d IH]; [reflexivity|]. simpl in *.
    apply andb_true_iff in H. destruct H as [Hc H].
    now rewrite (digit_solid _ Hc), IH.
  - destruct d as [|y1 [|y2 [|y3 [|y4 [|h1 [|m1 [|m2 [|h2 [|d1 [|d2 [|]]]]]]]]]]];
      try discriminate.
    unfold isoShaped in H. cbn [forallb] in H.
    rewrite !andb_true_iff, !N.eqb_eq in H.
    destruct H as [[[Y1 [Y2 [Y3 [Y4 [M1 [M2 [D1 [D2 _]]]]]]]] ->] ->].
    cbn [forallb].
    now rewrite (digit_solid _ Y1), (digit_solid _ Y2), (digit_solid _ Y3),
      (digit_solid _ Y4), (digit_solid _ M1), (digit_solid _ M2),
      (digit_solid _ D1), (digit_solid _ D2).
Qed.

(** X3.  The date of a record is a piece of the release text found on
    the page, and it is empty, four digits, or four digits, a hyphen,
    two digits, a hyphen and two digits.  It has the long form
    whenever the release text holds a date of that form, even after a
    bare year, and it is empty only when the text has no four digits
    in a row. *)
Theorem date_global_shape `{Platform} (doc : document) (opUrl : jsstring) :
  exists d,
    date_global (release (pageRecord doc opUrl)) = JString d /\
    (d = [] \/ yearShaped d = true \/ isoShaped d = true) /\
    JsString.includes d (Page.releaseRaw doc) = true /\
    (forall iso, isoShaped iso = true ->
       JsString.includes iso (Page.releaseRaw doc) = true ->
       isoShaped d = true) /\
    (forall y, yearShaped y = true ->
       JsString.includes y (Page.releaseRaw doc) = true -> d <> []).
Proof.
  exists (Page.dateOf (Page.releaseRaw doc)).
  destruct (dateOf_shape (Page.releaseRaw doc)) as [Hshape Hin].
  split.
  { unfold pageRecord, Page.date_global; simpl.
    apply solid_text_tidy, date_shapes_solid, Hshape. }
  split; [exact Hshape|]. split; [exact Hin|].
  unfold Page.dateOf.
  destruct (Page.releaseRaw doc) as [|c raw] eqn:Er.
  { split.
    - intros iso Hiso Hi. destruct iso; [discriminate Hiso | discriminate Hi].
    - intros y Hy Hi. destruct y; [discriminate Hy | discriminate Hi]. }
  cbn [JsString.nonempty].
  destruct (JsString.matchIso (c :: raw)) as [iso0|] eqn:Ei.
  - destruct (matchIso_spec _ Ei) as [Hs _]. split; [auto|].
    intros _ _ _ ->. discriminate Hs.
  - split.
    + intros iso Hiso Hi. rewrite (matchIso_complete _ Ei _ Hiso) in Hi.
      discriminate.
    + destruct (JsString.matchYear (c :: raw)) as [y0|] eqn:Ey.
      * destruct (matchYear_spec _ Ey) as [Hs _].
        intros _ _ _ ->. discriminate Hs.
      * intros y Hy Hi. rewrite (matchYear_complete _ Ey _ Hy) in Hi.
        discriminate.
Qed.

Lemma date_global_shape_witness :
  JsString.includes (js "2020-05-14")
    (Page.releaseRaw (H := Fixture.wiki) Fixture.exusiai) = true /\
  exists d,
    date_global (release (@pageRecord Fixture.wiki Fixture.exusiai Fixture.urlExusiai))
      = JString d /\ isoShaped d = true.
Proof.
  assert (Hi : JsString.includes (js "2020-05-14")
                 (Page.releaseRaw (H := Fixture.wiki) Fixture.exusiai) = true)
    by reflexivity.
  split; [exact Hi|].
  destruct (@date_global_shape Fixture.wiki Fixture.exusiai Fixture.urlExusiai)
    as [d [E [_ [_ [Hiso _]]]]].
  exists d. split; [exact E|].
  exact (Hiso (js "2020-05-14") eq_refl Hi).
Defined.

Lemma orElse_solid (a b : jsstring) :
  solidEnds a -> solidEnds b -> solidEnds (orElse a b).
Proof. unfold orElse. now destruct (JsString.nonempty a). Qed.

Lemma solidEnds_nil : solidEnds [].
Proof. split; exact I. Qed.

Lemma releaseRaw_solid `{Platform} (doc : document) :
  solidEnds (Page.releaseRaw doc).
Proof.
  unfold Page.releaseRaw.
  repeat (apply orElse_solid; [apply extractField_solid|]).
  apply solidEnds_nil.
Qed.

Lemma eventOf_solid (raw : jsstring) :
  solidEnds raw -> raw <> [] ->
  Page.eventOf raw <> [] /\ solidEnds (Page.eventOf raw).
Proof.
  intros Hs Hne. unfold Page.eventOf.
  destruct raw as [|c raw]; [contradiction|]. cbn [JsString.nonempty].
  destruct (JsString.trim (JsString.removeFirst (Page.dateOf (c :: raw)) (c :: raw)))
    as [|e ev] eqn:E; cbn [JsString.nonempty].
  - split; [discriminate | exact Hs].
  - split; [discriminate|]. rewrite <- E. apply trim_solid.
Qed.

Lemma tidy_nonempty (s : jsstring) :
  solidEnds s -> s <> [] -> Page.tidy (JString s) <> JString [].
Proof.
  intros Hs Hne. unfold Page.tidy; simpl.
  destruct s as [|c s]; [contradiction|]. cbn [JsString.nonempty].
  intros [= E]. apply trim_blank in E.
  unfold JsString.collapseSpaces in E.
  rewrite collapseFrom_nonblank in E; [discriminate|].
  apply solid_nonblank; [exact Hs | discriminate].
Qed.

(** X4.  A record has an event name exactly when release text was
    found on the page: without release text the date and the event
    name are both empty, with release text the event name is not
    empty, so a record with a date always has an event name. *)
Theorem event_name_present `{Platform} (doc : document) (opUrl : jsstring) :
  (Page.releaseRaw doc = [] ->
     date_global (release (pageRecord doc opUrl)) = JString [] /\
     event_name (release (pageRecord doc opUrl)) = JString []) /\
  (Page.releaseRaw doc <> [] ->
     event_name (release (pageRecord doc opUrl)) <> JString []) /\
  (date_global (release (pageRecord doc opUrl)) <> JString [] ->
     event_name (release (pageRecord doc opUrl)) <> JString []).
Proof.
  assert (Hempty : Page.releaseRaw doc = [] ->
            date_global (release (pageRecord doc opUrl)) = JString [] /\
            event_name (release (pageRecord doc opUrl)) = JString []).
  { intros E. unfold pageRecord, Page.date_global, Page.event_name; simpl.
    rewrite E. split; reflexivity. }
  assert (Hfull : Page.releaseRaw doc <> [] ->
            event_name (release (pageRecord doc opUrl)) <> JString []).
  { intros Hne. unfold pageRecord, Page.event_name; simpl.
    destruct (eventOf_solid (releaseRaw_solid doc) Hne) as [He Hs].
    now apply tidy_nonempty. }
  split; [exact Hempty|]. split; [exact Hfull|].
  intros Hd. apply Hfull. intros E. apply Hd. now apply Hempty.
Qed.

Lemma event_name_present_witness :
  Page.releaseRaw (H := Fixture.wiki) Fixture.bare = [] /\
  event_name (release (@pageRecord Fixture.wiki Fixture.bare Fixture.urlTexas))
    = JString [] /\
  Page.releaseRaw (H := Fixture.wiki) Fixture.texas <> [] /\
  event_name (release (@pageRecord Fixture.wiki Fixture.texas Fixture.urlTexas))
    <> JString [].
Proof.
  assert (E : Page.releaseRaw (H := Fixture.wiki) Fixture.bare = [])
    by reflexivity.
  assert (N : Page.releaseRaw (H := Fixture.wiki) Fixture.texas <> [])
    by (vm_compute; discriminate).
  split; [exact E|].
  split; [exact (proj2 (proj1 (@event_name_present Fixture.wiki Fixture.bare
                                  Fixture.urlTexas) E))|].
  split; [exact N|].
  exact (proj1 (proj2 (@event_name_present Fixture.wiki Fixture.texas
                         Fixture.urlTexas)) N).
Defined.

(* ================================================================== *)
(** ** Image addresses                                                 *)
(* ================================================================== *)

(** X5.  After the two prefix steps an image address never starts
    with a slash, the steps change nothing when applied again, and an
    address that does not start with a slash is left as it is. *)
Theorem absolute_no_leading_slash (s : jsstring) :
  exists r,
    Page.absolute (JString s) = JString r /\
    JsString.startsWith (js "/") r = false /\
    Page.absolute (JString r) = JString r /\
    (JsString.startsWith (js "/") s = false -> r = s).
Proof.
  assert (Hkeep : forall t, JsString.startsWith (js "/") t = false ->
                            Page.absolute (JString t) = JString t).
  { intros t E1.
    assert (E2 : JsString.startsWith (js "//") t = false).
    { destruct (JsString.startsWith (js "//") t) eqn:E; [|reflexivity].
      apply (startsWith_app (js "/") (js "/")) in E. congruence. }
    unfold Page.absolute. rewrite E2, andb_false_r. now rewrite E1, andb_false_r. }
  destruct (JsString.startsWith (js "/") s) eqn:E1.
  - destruct (JsString.startsWith (js "//") s) eqn:E2.
    + exists (js "https:" ++ s).
      split; [now apply absolute_protocol_relative|].
      split; [reflexivity|]. split; [now apply Hkeep | discriminate].
    + exists (siteRoot ++ s).
      split; [now apply absolute_root_relative|].
      split; [reflexivity|]. split; [now apply Hkeep | discriminate].
  - exists s. split; [now apply Hkeep|]. split; [exact E1|].
    split; [now apply Hkeep | reflexivity].
Qed.

Lemma absolute_no_leading_slash_witness :
  exists r,
    Page.absolute (JString (js "images/texas.png")) = JString r /\
    r = js "images/texas.png".
Proof.
  destruct (absolute_no_leading_slash (js "images/texas.png"))
    as [r [E [_ [_ Hsame]]]].
  exists r. split; [exact E | exact (Hsame eq_refl)].
Defined.

(* ================================================================== *)
(** ** The links of a listing page                                     *)
(* ================================================================== *)

Lemma setAdd_NoDup (x : jsstring) (s : list jsstring) :
  NoDup s -> NoDup (setAdd x s).
Proof.
  intros Hs. unfold setAdd.
  destruct (existsb (JsString.eqb x) s) eqn:E; [exact Hs|].
  apply NoDup_app; [exact Hs | constructor; [intros [] | constructor] |].
  intros y Hy [<- | []].
  assert (Hx : existsb (JsString.eqb x) s = true)
    by (apply existsb_exists; exists x; split; [exact Hy | apply eqb_refl]).
  congruence.
Qed.

Lemma addOperatorLink_cases `{Platform} (links : list jsstring) (el : element) :
  addOperatorLink links el = links \/
  exists h, addOperatorLink links el = setAdd (URL_href h) links.
Proof.
  unfold addOperatorLink.
  destruct (attr (js "href") [el]); auto.
  match goal with |- context [if ?c then _ else _] => destruct c end; eauto.
Qed.

Lemma addFallbackLink_cases `{Platform} (links : list jsstring) (el : element) :
  addFallbackLink links el = links \/
  exists h, addFallbackLink links el = setAdd (URL_href h) links.
Proof.
  unfold addFallbackLink.
  destruct (attr (js "href") [el]); auto.
  repeat match goal with
         | |- context [if ?c then _ else _] => destruct c
         end; eauto.
Qed.

Lemma addOperatorLink_keeps `{Platform} (links : list jsstring)
  (el : element) (u : jsstring) :
  In u links -> In u (addOperatorLink links el).
Proof.
  intros Hu. destruct (addOperatorLink_cases links el) as [-> | [h ->]];
    [exact Hu | apply setAdd_In; now right].
Qed.

Lemma operator_fold_keeps `{Platform} (l : list element)
  (links : list jsstring) (u : jsstring) :
  In u links -> In u (fold_left addOperatorLink l links).
Proof.
  revert links; induction l as [|el l IH]; intros links Hu; simpl;
    [exact Hu|].
  apply IH. now apply addOperatorLink_keeps.
Qed.

Lemma listingLinks_operator `{Platform} (doc : document) (el : element)
  (h : jsstring) :
  In el (select (contentLink (js "/wiki/Operator")) doc) ->
  attr (js "href") [el] = JString h ->
  JsString.includes colon h = false ->
  In (URL_href h) (listingLinks doc).
Proof.
  intros Hel Eh Hc.
  destruct (contentLink_href _ _ _ Hel) as [h' [Eh' [Hp Hs]]].
  assert (h' = h) by congruence. subst h'.
  unfold listingLinks. apply fallback_fold_keeps.
  destruct (in_split _ _ Hel) as [l1 [l2 ->]].
  rewrite fold_left_app. simpl. apply operator_fold_keeps.
  unfold addOperatorLink.
  rewrite Eh, (startsWith_nonempty _ _ Hp Hs), Hc. simpl.
  apply setAdd_In. now left.
Qed.

Lemma listingLinks_NoDup `{Platform} (doc : document) :
  NoDup (listingLinks doc).
Proof.
  unfold listingLinks. apply fold_left_invariant.
  - apply fold_left_invariant; [constructor|].
    intros links el _ Hl.
    destruct (addOperatorLink_cases links el) as [-> | [h ->]];
      [exact Hl | now apply setAdd_NoDup].
  - intros links el _ Hl.
    destruct (addFallbackLink_cases links el) as [-> | [h ->]];
      [exact Hl | now apply setAdd_NoDup].
Qed.

(** X6.  The list a listing page yields holds exactly the resolved
    addresses of the content links without a colon that either start
    with "/wiki/Operator", whatever their text and ending, or start
    with "/wiki/" and pass the test of the second heuristic; and no
    address is listed twice. *)
Theorem listingLinks_exact `{Platform} (doc : document) :
  NoDup (listingLinks doc) /\
  forall u,
    In u (listingLinks doc) <->
    exists el h,
      attr (js "href") [el] = JString h /\ u = URL_href h /\
      JsString.includes colon h = false /\
      (In el (select (contentLink (js "/wiki/Operator")) doc) \/
       In el (select (contentLink (js "/wiki/")) doc) /\
       fallbackAccepts h (JsString.trim (text [el])) = true).
Proof.
  split; [apply listingLinks_NoDup|].
  intros u. split.
  - intros Hu.
    destruct (listingLinks_origin doc u Hu) as [el [h [Eh [Eu [_ [Hc Hor]]]]]].
    exists el, h. auto.
  - intros [el [h [Eh [-> [Hc [Hel | [Hel Ha]]]]]]].
    + now apply (listingLinks_operator doc el).
    + now apply (listingLinks_accepted doc el).
Qed.

Lemma listingLinks_exact_witness :
  In (siteRoot ++ js "/wiki/Operators") (@listingLinks Fixture.wiki Fixture.roster).
Proof.
  apply (proj2 (@listingLinks_exact Fixture.wiki Fixture.roster)).
  exists (hd Fixture.noElement
            (select (contentLink (js "/wiki/Operator")) Fixture.roster)),
         (js "/wiki/Operators").
  split; [reflexivity|]. split; [reflexivity|]. split; [reflexivity|].
  left. vm_compute. left. reflexivity.
Defined.

(* ================================================================== *)
(** ** The URLs main parses                                            *)
(* ================================================================== *)

Lemma addAll_spec (links urls0 : list jsstring) :
  (forall u, In u (fold_left (fun s l => setAdd l s) links urls0) <->
             In u urls0 \/ In u links) /\
  (NoDup urls0 -> NoDup (fold_left (fun s l => setAdd l s) links urls0)).
Proof.
  revert urls0; induction links as [|x links IH]; intros urls0; simpl.
  - split; [intros u; tauto | auto].
  - destruct (IH (setAdd x urls0)) as [Hin Hnd]. split.
    + intros u. rewrite Hin, setAdd_In. intuition congruence.
    + intros H0. apply Hnd. now apply setAdd_NoDup.
Qed.

Lemma discover_from `{Platform} (l : list jsstring)
  (st : list jsstring * list consoleEntry) :
  snd (fold_left discoverStep l st) = snd st ++ flat_map listingFailure l /\
  (forall u, In u (fst (fold_left discoverStep l st)) <->
     In u (fst st) \/
     exists page links,
       In page l /\
       fetchOperatorLinksFromListing (BASE ++ page) = Returned links /\
       In u links) /\
  (NoDup (fst st) -> NoDup (fst (fold_left discoverStep l st))).
Proof.
  revert st; induction l as [|page l IH]; intros st; simpl.
  - split; [now rewrite app_nil_r|]. split; [|auto].
    intros u. split; [auto|]. intros [Hu | [p [ls [[] _]]]]. exact Hu.
  - destruct (IH (discoverStep st page)) as [Hlog [Hin Hnd]].
    unfold discoverStep, listingFailure in *.
    destruct (fetchOperatorLinksFromListing (BASE ++ page)) as [links|m] eqn:E;
      simpl in *.
    + destruct (addAll_spec links (fst st)) as [Ha Hb].
      split; [exact Hlog|]. split; [|auto].
      intros u. rewrite Hin, Ha. split.
      * intros [[Hu | Hu] | [p [ls [Hp [Ep Hu]]]]]; [now left | |].
        -- right. exists page, links. auto.
        -- right. exists p, ls. auto.
      * intros [Hu | [p [ls [[<- | Hp] [Ep Hu]]]]]; [now left; left | |].
        -- left; right. congruence.
        -- right. exists p, ls. auto.
    + split; [now rewrite Hlog, <- app_assoc|]. split; [|exact Hnd].
      intros u. rewrite Hin. split.
      * intros [Hu | [p [ls [Hp [Ep Hu]]]]]; [now left|].
        right. exists p, ls. auto.
      * intros [Hu | [p [ls [[<- | Hp] [Ep Hu]]]]]; [now left | congruence |].
        right. exists p, ls. auto.
Qed.

Lemma strictly_sorted (l : list jsstring) :
  StronglySorted (sortsBefore codeUnitCompare) l -> NoDup l ->
  StronglySorted strictlyBefore l.
Proof.
  induction 1 as [|x l Hs IH Hx]; intros Hnd; [constructor|].
  inversion Hnd as [|? ? Hnotin Hnd']; subst.
  constructor; [now apply IH|].
  rewrite Forall_forall in *. intros y Hy. split.
  - apply codeUnitCompare_le. now apply Hx.
  - intros ->. contradiction.
Qed.

(** X7.  The URLs [main] goes on to parse are exactly the links of
    the listing pages that could be fetched; a listing page that
    cannot be fetched adds one line to the console, with its address
    and the message, and the other pages are still read. *)
Theorem urls_from_listings `{Platform} :
  (forall u,
     In u urls <->
     exists page links,
       In page rarityPages /\
       fetchOperatorLinksFromListing (BASE ++ page) = Returned links /\
       In u links) /\
  snd discover = flat_map listingFailure rarityPages.
Proof.
  destruct (discover_from rarityPages ([], [])) as [Hlog [Hin _]].
  split; [|exact Hlog].
  intros u. unfold urls. rewrite sortWith_In. unfold discover.
  rewrite Hin. simpl. tauto.
Qed.

Lemma urls_from_listings_witness :
  In Fixture.urlLappland (@urls Fixture.wiki).
Proof.
  apply (proj2 (proj1 (@urls_from_listings Fixture.wiki) Fixture.urlLappland)).
  exists (js "Operator/6-star"),
         [Fixture.urlTexas; Fixture.urlLappland; Fixture.urlExusiai].
  split; [do 5 right; left; reflexivity|].
  split; [reflexivity | right; left; reflexivity].
Defined.

(** X8.  The URLs are parsed in strictly increasing code-unit order:
    no URL is parsed twice. *)
Theorem urls_strictly_increasing `{Platform} :
  NoDup urls /\ StronglySorted strictlyBefore urls.
Proof.
  assert (Hnd : NoDup urls).
  { unfold urls.
    apply Permutation_NoDup with (l := fst discover).
    - symmetry. apply sortWith_perm.
    - destruct (discover_from rarityPages ([], [])) as [_ [_ Hnd]].
      apply Hnd. constructor. }
  split; [exact Hnd|].
  apply strictly_sorted; [apply urls_sorted | exact Hnd].
Qed.

(* ================================================================== *)
(** ** One record or one console line per URL                          *)
(* ================================================================== *)

Lemma parse_counts `{Platform} (l : list jsstring) :
  map source (flat_map parsed l) = map JString (filter loaded l) /\
  flat_map (fun u => snd (parseOperatorPage u)) l = flat_map pageFailure l /\
  length (flat_map parsed l) + length (flat_map pageFailure l) = length l.
Proof.
  induction l as [|u l [IH1 [IH2 IH3]]]; [repeat split|].
  simpl. rewrite !map_app, !length_app, IH1, IH2.
  unfold parsed, pageFailure, loaded, parseOperatorPage in *.
  destruct (fetchHtml u) as [page|m]; [destruct (cheerio_load page)|];
    simpl; repeat split; lia.
Qed.

Lemma operators_sources `{Platform} :
  map source operators = map JString (filter loaded urls).
Proof. rewrite operators_parsed. apply parse_counts. Qed.

Lemma urls_NoDup `{Platform} : NoDup urls.
Proof.
  unfold urls. apply Permutation_NoDup with (l := fst discover).
  - symmetry. apply sortWith_perm.
  - destruct (discover_from rarityPages ([], [])) as [_ [_ Hnd]].
    apply Hnd. constructor.
Qed.

Lemma operators_sources_NoDup `{Platform} : NoDup (map source operators).
Proof.
  rewrite operators_sources.
  apply NoDup_map_NoDup_ForallPairs.
  - intros a b _ _ E. congruence.
  - apply NoDup_filter, urls_NoDup.
Qed.

(** X9.  Every URL gives either one record or one console line: the
    sources of the parsed records are the URLs whose page was fetched
    and loaded, in order; the console holds one line for each listing
    page that failed, followed by one line for each URL whose request
    was rejected or whose body could not be loaded; and the number of
    records plus the number of failed URLs is the number of URLs. *)
Theorem one_outcome_per_url `{Platform} :
  map source operators = map JString (filter loaded urls) /\
  snd main = flat_map listingFailure rarityPages ++ flat_map pageFailure urls /\
  length operators + length (flat_map pageFailure urls) = length urls.
Proof.
  destruct (parse_counts urls) as [H1 [H2 H3]].
  split; [exact operators_sources|]. split.
  - unfold main; simpl. f_equal.
    + apply (discover_from rarityPages ([], [])).
    + unfold parseAll. rewrite parseAll_from. simpl. exact H2.
  - rewrite operators_parsed. exact H3.
Qed.

Lemma one_outcome_per_url_witness :
  map source (@operators Fixture.wikiNullBody) = [JString Fixture.urlExusiai] /\
  In (ConsoleError [js "parseOperatorPage error for"; Fixture.urlTexas;
                    js "cheerio.load() expects a string"])
     (snd (@main Fixture.wikiNullBody)).
Proof.
  destruct (@one_outcome_per_url Fixture.wikiNullBody) as [Hs [Hc _]].
  split.
  - rewrite Hs. vm_compute. reflexivity.
  - rewrite Hc. apply in_or_app. right. vm_compute.
    right. left. reflexivity.
Defined.

Lemma final_in_operators `{Platform} (o : OperatorRecord) :
  In o final -> In o operators.
Proof.
  intros Ho. destruct (finalize_first _ _ Ho) as [_ [l1 [l2 [E _]]]].
  unfold operators in *. rewrite E. apply in_elt.
Qed.

Lemma final_NoDup `{Platform} : NoDup final.
Proof. apply (NoDup_map_inv name), finalize_names_NoDup. Qed.

(** X10.  Every record of the final collection was made from a page
    that was fetched and loaded from one of the URLs, and carries that
    URL as its source; no two records share a source, and there are at most as
    many records as parsed pages and as URLs. *)
Theorem final_provenance `{Platform} :
  (forall o, In o final ->
     exists u page doc,
       In u urls /\ fetchHtml u = Returned page /\
       cheerio_load page = Returned doc /\
       o = pageRecord doc u) /\
  NoDup (map source final) /\
  length final <= length operators /\
  length operators <= length urls.
Proof.
  split; [|split; [|split]].
  - intros o Ho. apply final_in_operators in Ho.
    destruct (operators_origin o Ho) as [u [Hu [_ Hp]]].
    unfold parsed in Hp.
    destruct (parseOperatorPage_cases u)
      as [[doc [[page [Ef El]] Ep]] | [m [_ Ep]]];
      rewrite Ep in Hp; simpl in Hp; [|discriminate].
    exists u, page, doc. split; [exact Hu|]. split; [exact Ef|].
    split; [exact El | congruence].
  - apply NoDup_map_NoDup_ForallPairs; [|apply final_NoDup].
    intros a b Ha Hb E.
    apply final_in_operators, operators_origin in Ha, Hb.
    destruct Ha as [u [_ [Eu Hu]]], Hb as [v [_ [Ev Hv]]].
    assert (u = v) by congruence. subst v. congruence.
  - apply NoDup_incl_length; [apply final_NoDup|].
    intros o. apply final_in_operators.
  - destruct (parse_counts urls) as [_ [_ H3]].
    rewrite operators_parsed. lia.
Qed.

Lemma final_provenance_witness :
  exists u page doc,
    In u (@urls Fixture.wiki) /\ @fetchHtml Fixture.wiki u = Returned page /\
    @cheerio_load Fixture.wiki page = Returned doc /\
    @pageRecord Fixture.wiki Fixture.texas Fixture.urlTexas
      = @pageRecord Fixture.wiki doc u.
Proof.
  apply (proj1 (@final_provenance Fixture.wiki)).
  vm_compute. right. left. reflexivity.
Defined.

(* ================================================================== *)
(** ** Reducing twice, and pages without a name                        *)
(* ================================================================== *)

Lemma dedupe_distinct (l : list OperatorRecord)
  (acc : list (jsval * OperatorRecord)) :
  NoDup (map fst acc ++ map name l) ->
  Forall (fun o => truthy (name o) = true) l ->
  fold_left dedupeStep l acc = acc ++ map (fun o => (name o, o)) l.
Proof.
  revert acc; induction l as [|o l IH]; intros acc Hnd Ht; simpl.
  - now rewrite app_nil_r.
  - inversion Ht as [|? ? Ho Hl]; subst.
    unfold dedupeStep at 2. rewrite Ho. simpl.
    assert (Hnew : mapHas (name o) acc = false).
    { destruct (mapHas (name o) acc) eqn:E; [|reflexivity].
      apply mapHas_In in E. simpl in Hnd.
      apply NoDup_remove_2 in Hnd. exfalso. apply Hnd.
      apply in_or_app. now left. }
    rewrite Hnew. simpl. rewrite IH; [now rewrite <- app_assoc| |exact Hl].
    rewrite map_app. simpl. rewrite <- app_assoc. exact Hnd.
Qed.

Lemma sortWith_fixed {A : Type} (cmp : A -> A -> Z) (l : list A) :
  Sorted (sortsBefore cmp) l -> sortWith cmp l = l.
Proof.
  induction 1 as [|x l Hl IH Hx]; [reflexivity|].
  unfold sortWith in *. cbn [fold_right]. rewrite IH.
  destruct Hx as [|y l' Hxy]; [reflexivity|]. cbn [insertSorted].
  unfold sortsBefore in Hxy.
  destruct (Z.leb_spec (cmp x y) 0); [reflexivity | lia].
Qed.

(** X11.  With a consistent [localeCompare], reducing a collection that
    is already reduced changes nothing: dedup and sort, applied to
    their own result, return it as it is. *)
Theorem finalize_idempotent `{P : Platform} `{!ConsistentCollation P}
  (l : list OperatorRecord) :
  finalize (finalize l) = finalize l.
Proof.
  assert (Hsorted : Sorted (sortsBefore byNameOrder) (finalize l)).
  { unfold finalize. apply sortWith_sorted. intros a b. apply byNameOrder_total. }
  unfold finalize at 1.
  rewrite (@dedupe_distinct (finalize l) []).
  - simpl. rewrite map_map. simpl. rewrite map_id.
    now apply sortWith_fixed.
  - simpl. apply finalize_names_NoDup.
  - apply Forall_forall. intros o Ho. now apply finalize_first in Ho.
Qed.

Lemma finalize_idempotent_witness :
  @finalize Fixture.wiki (@final Fixture.wiki) = @final Fixture.wiki.
Proof. exact (@finalize_idempotent Fixture.wiki wiki_collation _). Defined.

Lemma pageName_solid (doc : document) : solidEnds (Page.name doc).
Proof. unfold Page.name. apply orElse_solid; apply trim_solid. Qed.

(** X12.  The name of a record is empty exactly when the text of the
    heading and the text of the infobox title are both empty or white
    space; the record of such a page never reaches the final
    collection. *)
Theorem nameless_page_dropped `{Platform} (doc : document) (opUrl : jsstring) :
  (name (pageRecord doc opUrl) = JString [] <->
   forallb JsString.isWhiteSpace
     (text (select (on (hasId (js "firstHeading"))) doc)) = true /\
   forallb JsString.isWhiteSpace
     (text (select (on (hasClass (js "pi-title"))) doc)) = true) /\
  (name (pageRecord doc opUrl) = JString [] ->
   ~ In (pageRecord doc opUrl) final).
Proof.
  assert (Hname : name (pageRecord doc opUrl) = JString [] <-> Page.name doc = []).
  { unfold pageRecord; simpl. split.
    - intros E. destruct (Page.name doc) as [|c t] eqn:En; [reflexivity|].
      exfalso. apply (tidy_nonempty (s := c :: t)); [|discriminate | exact E].
      rewrite <- En. apply pageName_solid.
    - intros ->. reflexivity. }
  split.
  - rewrite Hname. unfold Page.name, orElse. rewrite <- !trim_blank.
    destruct (JsString.trim (text (select (on (hasId (js "firstHeading"))) doc)));
      simpl; [tauto|].
    split; [discriminate | intros [E _]; discriminate E].
  - intros E Hin. apply finalize_first in Hin. destruct Hin as [Ht _].
    rewrite E in Ht. discriminate.
Qed.

Lemma nameless_page_dropped_witness :
  ~ In (@pageRecord Fixture.wiki Fixture.riggedNoRow Fixture.urlTexas)
       (@final Fixture.wiki).
Proof.
  apply (proj2 (@nameless_page_dropped Fixture.wiki Fixture.riggedNoRow
                  Fixture.urlTexas)).
  reflexivity.
Defined.

(* ================================================================== *)
(** ** The daily operator and the countdown                            *)
(* ================================================================== *)

Ltac time_arith :=
  change Game.msPerDay with 86400000%Z in *;
  change Game.msPerHour with 3600000%Z in *;
  change Game.msPerMinute with 60000%Z in *;
  Z.div_mod_to_equations; lia.

Lemma utcHour_early (t : Z) :
  (Game.getUTCHours t <? 11)%Z = true <->
  (t mod Game.msPerDay < 11 * Game.msPerHour)%Z.
Proof.
  unfold Game.getUTCHours. rewrite Z.ltb_lt. split; intros H; time_arith.
Qed.

Lemma daySeed_window (d clock : Z) :
  (d * Game.msPerDay + 11 * Game.msPerHour <= clock)%Z ->
  (clock < (d + 1) * Game.msPerDay + 11 * Game.msPerHour)%Z ->
  Game.daySeed clock 0 = d.
Proof.
  intros H1 H2. unfold Game.daySeed, Game.addUTCDate.
  destruct (Game.getUTCHours clock <? 11)%Z eqn:E.
  - apply utcHour_early in E. time_arith.
  - assert (E' : ~ (clock mod Game.msPerDay < 11 * Game.msPerHour)%Z).
    { intros H. apply utcHour_early in H. congruence. }
    time_arith.
Qed.

Lemma daySeed_in_window (clock : Z) :
  (Game.daySeed clock 0 * Game.msPerDay + 11 * Game.msPerHour <= clock)%Z /\
  (clock < (Game.daySeed clock 0 + 1) * Game.msPerDay + 11 * Game.msPerHour)%Z.
Proof.
  unfold Game.daySeed, Game.addUTCDate.
  destruct (Game.getUTCHours clock <? 11)%Z eqn:E.
  - apply utcHour_early in E. time_arith.
  - assert (E' : ~ (clock mod Game.msPerDay < 11 * Game.msPerHour)%Z).
    { intros H. apply utcHour_early in H. congruence. }
    time_arith.
Qed.

Lemma utcHour_shift (t k : Z) :
  Game.getUTCHours (t - k * Game.msPerDay) = Game.getUTCHours t.
Proof. unfold Game.getUTCHours. time_arith. Qed.

Lemma daySeed_offset (clock k : Z) :
  Game.daySeed clock k = Game.daySeed (clock - k * Game.msPerDay) 0.
Proof.
  unfold Game.daySeed. rewrite utcHour_shift. unfold Game.addUTCDate.
  destruct (Game.getUTCHours clock <? 11)%Z; f_equal; lia.
Qed.

Lemma getNextReset_spec (clock : Z) :
  Game.getNextReset clock
  = ((Game.daySeed clock 0 + 1) * Game.msPerDay + 11 * Game.msPerHour)%Z.
Proof.
  unfold Game.getNextReset, Game.daySeed, Game.setUTCHours11, Game.addUTCDate.
  rewrite Z.geb_leb.
  destruct (Game.getUTCHours clock <? 11)%Z eqn:E.
  - destruct (Z.leb_spec 11 (Game.getUTCHours clock)) as [H|H];
      [apply Z.ltb_lt in E; lia|].
    apply utcHour_early in E. time_arith.
  - destruct (Z.leb_spec 11 (Game.getUTCHours clock)) as [H|H];
      [|apply Z.ltb_ge in E; lia].
    assert (E' : ~ (clock mod Game.msPerDay < 11 * Game.msPerHour)%Z).
    { intros H'. apply utcHour_early in H'. congruence. }
    time_arith.
Qed.

Lemma daily_by_seed (operators : list OperatorRecord) (clock k : Z) :
  operators <> [] -> (0 <= Game.daySeed clock k)%Z ->
  exists o,
    Game.getDailyOperator operators clock k = Some o /\
    nth_error operators
      (Z.to_nat (Game.daySeed clock k mod Z.of_nat (length operators))) = Some o /\
    In o operators.
Proof.
  intros Hne Hd. unfold Game.getDailyOperator.
  assert (Hlen : (0 < Z.of_nat (length operators))%Z)
    by (destruct operators; [contradiction | simpl; lia]).
  destruct (Z.eqb_spec (Z.of_nat (length operators)) 0) as [E|_]; [lia|].
  rewrite (Z.rem_mod_nonneg _ _ Hd Hlen).
  pose proof (Z.mod_pos_bound (Game.daySeed clock k) _ Hlen) as Hb.
  destruct (Z.ltb_spec (Game.daySeed clock k mod Z.of_nat (length operators)) 0)
    as [H|_]; [lia|].
  destruct (nth_error operators
              (Z.to_nat (Game.daySeed clock k mod Z.of_nat (length operators))))
    as [o|] eqn:En.
  - exists o. repeat split. now apply nth_error_In in En.
  - apply nth_error_None in En. lia.
Qed.

(** X13.  From one 11:00 UTC to the next the daily operator is one
    and the same record of the dataset: during day [d] after the
    epoch, counted from 11:00 UTC, it is the record at index
    [d mod length].  With an empty dataset there is no daily operator. *)
Theorem daily_operator_between_resets (operators : list OperatorRecord) :
  (forall d clock,
     operators <> [] -> (0 <= d)%Z ->
     (d * Game.msPerDay + 11 * Game.msPerHour <= clock)%Z ->
     (clock < (d + 1) * Game.msPerDay + 11 * Game.msPerHour)%Z ->
     exists o,
       Game.getDailyOperator operators clock 0 = Some o /\
       nth_error operators (Z.to_nat (d mod Z.of_nat (length operators)))
         = Some o /\
       In o operators) /\
  (forall clock offsetDays,
     Game.getDailyOperator [] clock offsetDays = None).
Proof.
  split; [|reflexivity].
  intros d clock Hne Hd H1 H2.
  pose proof (@daySeed_window d clock H1 H2) as E.
  destruct (@daily_by_seed operators clock 0 Hne) as [o Ho]; [lia|].
  rewrite E in Ho. now exists o.
Qed.

Lemma daily_operator_between_resets_witness :
  Game.getDailyOperator (@final Fixture.wiki)
    (20000 * Game.msPerDay + 12 * Game.msPerHour) 0
  = Some (@pageRecord Fixture.wiki Fixture.exusiai Fixture.urlExusiai).
Proof.
  destruct (proj1 (daily_operator_between_resets (@final Fixture.wiki))
              20000%Z (20000 * Game.msPerDay + 12 * Game.msPerHour)%Z)
    as [o [E [En _]]];
    [vm_compute; discriminate | lia | vm_compute; discriminate
     | vm_compute; reflexivity |].
  rewrite E. rewrite <- En. reflexivity.
Defined.

(** X14.  The operator shown for [offsetDays] days ago is the daily
    operator of the moment that many days earlier: the operator of
    yesterday is the one that was the daily operator 24 hours ago. *)
Theorem daily_operator_days_ago (operators : list OperatorRecord)
  (clock offsetDays : Z) :
  Game.getDailyOperator operators clock offsetDays
  = Game.getDailyOperator operators (clock - offsetDays * Game.msPerDay) 0.
Proof.
  unfold Game.getDailyOperator. now rewrite daySeed_offset.
Qed.

(** X15.  The moment [getNextReset] gives lies after the clock
    reading, at most one day later; the daily operator stays the same
    up to that moment, and at that moment the day number moves on by
    one. *)
Theorem next_reset_is_next_operator (clock : Z) :
  (clock < Game.getNextReset clock <= clock + Game.msPerDay)%Z /\
  (forall operators t,
     (clock <= t < Game.getNextReset clock)%Z ->
     Game.getDailyOperator operators t 0
     = Game.getDailyOperator operators clock 0) /\
  Game.daySeed (Game.getNextReset clock) 0 = (Game.daySeed clock 0 + 1)%Z.
Proof.
  pose proof (daySeed_in_window clock) as [H1 H2].
  rewrite getNextReset_spec.
  split; [lia|]. split.
  - intros operators t [Ht1 Ht2]. unfold Game.getDailyOperator.
    rewrite (@daySeed_window (Game.daySeed clock 0) t); [reflexivity | lia | lia].
  - apply daySeed_window; lia.
Qed.

Lemma next_reset_is_next_operator_witness :
  Game.getDailyOperator (@final Fixture.wiki)
    (20000 * Game.msPerDay + 23 * Game.msPerHour) 0
  = Game.getDailyOperator (@final Fixture.wiki)
      (20000 * Game.msPerDay + 12 * Game.msPerHour) 0.
Proof.
  apply (proj1 (proj2 (next_reset_is_next_operator
                         (20000 * Game.msPerDay + 12 * Game.msPerHour)))).
  vm_compute. split; [discriminate | reflexivity].
Defined.

Lemma padStart2_length (n : Z) :
  (0 <= n < 100)%Z -> length (Game.padStart2 (Game.toString n)) = 2.
Proof.
  intros Hn.
  assert (Hall : forallb
            (fun k => length (Game.padStart2 (Game.toString (Z.of_nat k))) =? 2)
            (seq 0 100) = true) by (vm_compute; reflexivity).
  rewrite forallb_forall in Hall.
  specialize (Hall (Z.to_nat n)).
  rewrite Z2Nat.id in Hall by lia.
  apply Nat.eqb_eq, Hall, in_seq. lia.
Qed.

(** X16.  As long as the clock does not run backwards between its two
    readings, [updateCountdown] never reports stale data.  Read at one
    instant, the time left is between 0h 00m and 24h 00m: the hours are
    at most 24, the minutes at most 59, they are the time to the next
    reset rounded down to the minute, and the text shown has seven
    code units. *)
Theorem countdown_display :
  (forall clock clock',
     (clock <= clock')%Z ->
     Game.staleData (Game.updateCountdown clock clock') = None) /\
  (forall clock,
     exists hours minutes,
       (0 <= hours <= 24)%Z /\ (0 <= minutes <= 59)%Z /\
       (hours * Game.msPerHour + minutes * Game.msPerMinute
          <= Game.getNextReset clock - clock
          < hours * Game.msPerHour + (minutes + 1) * Game.msPerMinute)%Z /\
       Game.timeLeft (Game.updateCountdown clock clock)
         = Game.padStart2 (Game.toString hours) ++ js "h " ++
           Game.padStart2 (Game.toString minutes) ++ js "m" /\
       length (Game.timeLeft (Game.updateCountdown clock clock)) = 7).
Proof.
  split.
  - intros clock clock' Hle. unfold Game.updateCountdown.
    pose proof (daySeed_in_window clock') as [H1 H2].
    rewrite getNextReset_spec.
    destruct (Z.leb_spec
                ((Game.daySeed clock' 0 + 1) * Game.msPerDay
                 + 11 * Game.msPerHour - clock) 0) as [H|H]; [lia | reflexivity].
  - intros clock.
    pose proof (daySeed_in_window clock) as [H1 H2].
    pose proof (getNextReset_spec clock) as En.
    set (diffMs := (Game.getNextReset clock - clock)%Z).
    assert (Hd : (0 < diffMs <= Game.msPerDay)%Z) by (unfold diffMs; lia).
    assert (Hrem : Z.rem diffMs Game.msPerHour = (diffMs mod Game.msPerHour)%Z).
    { apply Z.rem_mod_nonneg; [lia | reflexivity]. }
    exists (diffMs / Game.msPerHour)%Z,
           (diffMs mod Game.msPerHour / Game.msPerMinute)%Z.
    assert (Hh : (0 <= diffMs / Game.msPerHour <= 24)%Z) by time_arith.
    assert (Hm : (0 <= diffMs mod Game.msPerHour / Game.msPerMinute <= 59)%Z)
      by time_arith.
    assert (Et : Game.timeLeft (Game.updateCountdown clock clock)
                 = Game.padStart2 (Game.toString (diffMs / Game.msPerHour)) ++
                   js "h " ++
                   Game.padStart2
                     (Game.toString (diffMs mod Game.msPerHour / Game.msPerMinute)) ++
                   js "m").
    { unfold Game.updateCountdown. fold diffMs.
      destruct (Z.leb_spec diffMs 0) as [H|H]; [lia|].
      simpl. now rewrite Hrem. }
    split; [exact Hh|]. split; [exact Hm|].
    split; [time_arith|]. split; [exact Et|].
    rewrite Et, !length_app, !padStart2_length by lia. reflexivity.
Qed.

Lemma countdown_display_witness :
  Game.updateCountdown (20000 * Game.msPerDay + 12 * Game.msPerHour + 1)
    (20000 * Game.msPerDay + 12 * Game.msPerHour + 2)
  = Game.mkCountdown None (js "22h 59m").
Proof.
  pose proof (proj1 countdown_display
                (20000 * Game.msPerDay + 12 * Game.msPerHour + 1)%Z
                (20000 * Game.msPerDay + 12 * Game.msPerHour + 2)%Z) as H.
  destruct (Game.updateCountdown _ _) as [st tl] eqn:E.
  simpl in H. rewrite H by (vm_compute; discriminate).
  vm_compute in E. injection E as _ <-. reflexivity.
Defined.

(* ================================================================== *)
(** ** Sources, and ties in the final order                            *)
(* ================================================================== *)

Lemma urls_sitePages `{P : Platform} `{!RootRelativeUrls P} (u : jsstring) :
  In u urls -> sitePage u.
Proof.
  unfold urls. rewrite sortWith_In. unfold discover.
  destruct (discover_from rarityPages ([], [])) as [_ [Hin _]].
  rewrite Hin. intros [[] | [page [links [_ [E Hu]]]]].
  destruct (listing_returned _ E) as [body [doc [_ [_ ->]]]].
  now apply listingLinks_sitePage in Hu.
Qed.

(** X17.  When [URL] resolves a root-relative address to the site
    origin followed by a path without new colons, every URL [main]
    parses, and so the source of every record of the final collection,
    is an address of the site with no colon after the origin. *)
Theorem sources_are_site_pages `{P : Platform} `{!RootRelativeUrls P} :
  Forall sitePage urls /\
  (forall o, In o final -> exists u, source o = JString u /\ sitePage u).
Proof.
  split.
  - apply Forall_forall. intros u. apply urls_sitePages.
  - intros o Ho. apply final_in_operators, operators_origin in Ho.
    destruct Ho as [u [Hu [Es _]]]. exists u. split; [exact Es|].
    now apply urls_sitePages.
Qed.

Lemma sources_are_site_pages_witness :
  exists u,
    source (@pageRecord Fixture.wiki Fixture.texas Fixture.urlTexas) = JString u /\
    sitePage u.
Proof.
  apply (proj2 (@sources_are_site_pages Fixture.wiki wiki_urls)).
  vm_compute. right. left. reflexivity.
Defined.

Lemma insertSorted_split {A : Type} (cmp : A -> A -> Z) (x : A) (l : list A) :
  exists l1 l2,
    l = l1 ++ l2 /\ insertSorted cmp x l = l1 ++ x :: l2 /\
    forall y, In y l1 -> ~ sortsBefore cmp x y.
Proof.
  induction l as [|y l [l1 [l2 [E [Ei Hl1]]]]]; simpl.
  - exists [], []. repeat split. intros y [].
  - destruct (Z.leb_spec (cmp x y) 0) as [H|H].
    + exists [], (y :: l). repeat split. intros z [].
    + exists (y :: l1), l2. rewrite Ei. simpl. rewrite <- E. repeat split.
      intros z [<- | Hz]; [unfold sortsBefore; lia | now apply Hl1].
Qed.

Lemma precedes_In {A : Type} (a b : A) (l : list A) :
  precedes a b l -> exists l1 l2, l = l1 ++ a :: l2 /\ In b l2.
Proof.
  induction l as [|y l IH]; simpl; [intros []|].
  intros [[-> Hb] | H].
  - now exists [], l.
  - destruct (IH H) as [l1 [l2 [-> Hb]]]. now exists (y :: l1), l2.
Qed.

Lemma precedes_middle {A : Type} (a b x : A) (l1 l2 : list A) :
  precedes a b (l1 ++ l2) -> precedes a b (l1 ++ x :: l2).
Proof.
  induction l1 as [|y l1 IH]; simpl.
  - now right.
  - intros [[-> Hb] | H]; [left | right; now apply IH].
    split; [reflexivity|]. apply in_app_or in Hb. apply in_or_app.
    destruct Hb; [now left | right; now right].
Qed.

Lemma precedes_inserted {A : Type} (x b : A) (l1 l2 : list A) :
  In b l2 -> precedes x b (l1 ++ x :: l2).
Proof.
  intros Hb. induction l1 as [|y l1 IH]; simpl; [now left | now right].
Qed.

(** [Array.prototype.sort] is stable. *)
Lemma sortWith_stable {A : Type} (cmp : A -> A -> Z) (a b : A) (l : list A) :
  precedes a b l -> sortsBefore cmp a b -> precedes a b (sortWith cmp l).
Proof.
  intros H Hab. induction l as [|y l IH]; [destruct H|].
  unfold sortWith in *. cbn [fold_right].
  destruct (insertSorted_split cmp y (fold_right (insertSorted cmp) [] l))
    as [l1 [l2 [E [-> Hl1]]]].
  destruct H as [[-> Hb] | H].
  - apply precedes_inserted.
    assert (Hin : In b (l1 ++ l2)) by (rewrite <- E; now apply sortWith_In).
    apply in_app_or in Hin. destruct Hin as [Hin | Hin]; [|exact Hin].
    exfalso. now apply (Hl1 b).
  - apply precedes_middle. rewrite <- E. now apply IH.
Qed.

Lemma precedes_snoc {A : Type} (a b x : A) (l : list A) :
  precedes a b l -> precedes a b (l ++ [x]).
Proof.
  induction l as [|y l IH]; simpl; [intros []|].
  intros [[-> Hb] | H]; [left | right; now apply IH].
  split; [reflexivity | apply in_or_app; now left].
Qed.

Lemma precedes_last {A : Type} (a x : A) (l : list A) :
  In a l -> precedes a x (l ++ [x]).
Proof.
  induction l as [|y l IH]; simpl; [intros []|].
  intros [-> | H]; [left | right; now apply IH].
  split; [reflexivity | apply in_or_app; right; now left].
Qed.

Lemma precedes_unsnoc {A : Type} (a b x : A) (l : list A) :
  precedes a b (l ++ [x]) -> b <> x -> precedes a b l.
Proof.
  intros H Hne. induction l as [|y l IH]; simpl in *.
  - destruct H as [[_ []] | []].
  - destruct H as [[-> Hb] | H]; [left | right; now apply IH].
    split; [reflexivity|]. apply in_app_or in Hb.
    destruct Hb as [Hb | [Hb | []]]; [exact Hb | congruence].
Qed.

Lemma precedes_left {A : Type} (a b : A) (l : list A) :
  precedes a b l -> In a l.
Proof.
  induction l as [|y l IH]; simpl; [intros []|].
  intros [[-> _] | H]; [now left | right; now apply IH].
Qed.

Lemma precedes_total {A : Type} (a b : A) (l : list A) :
  In a l -> In b l -> a <> b -> precedes a b l \/ precedes b a l.
Proof.
  induction l as [|y l IH]; simpl; [intros []|].
  intros [-> | Ha] [-> | Hb] Hne; try congruence.
  - left. now left.
  - right. now left.
  - destruct (IH Ha Hb Hne); [left | right]; now right.
Qed.

Lemma byName_values_In (l : list OperatorRecord) (o : OperatorRecord) :
  In o (map snd (fold_left dedupeStep l [])) -> In o l.
Proof.
  rewrite in_map_iff. intros [[k o'] [E Hin]]. simpl in E. subst o'.
  destruct (dedupe_invariant l) as [_ [Hent _]].
  destruct (Hent _ _ Hin) as [_ [_ [l1 [l2 [-> _]]]]]. apply in_elt.
Qed.

(** The values of [byName] stand in the order of the array they were
    taken from. *)
Lemma byName_values_order (l : list OperatorRecord) :
  NoDup l ->
  forall a b,
    In a (map snd (fold_left dedupeStep l [])) ->
    In b (map snd (fold_left dedupeStep l [])) ->
    precedes a b l ->
    precedes a b (map snd (fold_left dedupeStep l [])).
Proof.
  induction l as [|x l IH] using rev_ind; intros Hnd a b Ha Hb Hp.
  - destruct Hp.
  - assert (Hl : NoDup l) by now apply NoDup_app_remove_r in Hnd.
    assert (Hx : ~ In x l).
    { apply NoDup_remove_2 with (l := l) (l' := []) in Hnd.
      now rewrite app_nil_r in Hnd. }
    rewrite fold_left_app in *. cbn [fold_left] in *.
    set (D := fold_left dedupeStep l []) in *.
    assert (Hcases : dedupeStep D x = D \/ dedupeStep D x = D ++ [(name x, x)]).
    { unfold dedupeStep. destruct (negb (truthy (name x))); [now left|].
      destruct (negb (mapHas (name x) D)); [now right | now left]. }
    assert (Hsub : forall o, In o (map snd D) -> In o l)
      by (intros o; apply byName_values_In).
    assert (Hb' : b = x \/ b <> x).
    { destruct Hcases as [E | E]; rewrite E in Hb.
      - right. intros ->. apply Hx. now apply Hsub.
      - rewrite map_app in Hb. apply in_app_or in Hb.
        destruct Hb as [Hb | [<- | []]]; [right | now left].
        intros ->. apply Hx. now apply Hsub. }
    destruct Hb' as [-> | Hbx].
    + assert (Hal : In a l).
      { apply precedes_In in Hp. destruct Hp as [l1 [l2 [E Hin]]].
        destruct l2 as [|z l2] using rev_ind; [destruct Hin|].
        rewrite app_comm_cons, app_assoc in E.
        apply app_inj_tail in E. destruct E as [-> _].
        apply in_elt. }
      destruct Hcases as [E | E]; rewrite E in *.
      * exfalso. apply Hx. now apply Hsub.
      * rewrite map_app in *. simpl in *. apply precedes_last.
        apply in_app_or in Ha. destruct Ha as [Ha | [<- | []]];
          [exact Ha | contradiction].
    + assert (Hpl : precedes a b l) by now apply precedes_unsnoc in Hp.
      assert (Hax : a <> x).
      { intros ->. apply Hx. now apply precedes_left in Hpl. }
      assert (Hin : forall o, o <> x -> In o (map snd (dedupeStep D x)) ->
                              In o (map snd D)).
      { intros o Ho. destruct Hcases as [E | E]; rewrite E; [auto|].
        rewrite map_app, in_app_iff. simpl. intuition congruence. }
      pose proof (IH Hl a b (Hin a Hax Ha) (Hin b Hbx Hb) Hpl) as Hd.
      destruct Hcases as [E | E]; rewrite E; [exact Hd|].
      rewrite map_app. now apply precedes_snoc.
Qed.

Lemma operators_NoDup `{Platform} : NoDup operators.
Proof. apply (NoDup_map_inv source), operators_sources_NoDup. Qed.

(** X18.  Of two records of the final collection, the one from the
    earlier URL stands first whenever its name does not compare after
    the other name; records whose names tie under [localeCompare] keep
    the order of their URLs. *)
Theorem ties_keep_url_order `{Platform} (a b : OperatorRecord) (u v : jsstring) :
  In a final -> In b final ->
  source a = JString u -> source b = JString v ->
  strictlyBefore u v ->
  sortsBefore byNameOrder a b ->
  precedes a b final.
Proof.
  intros Ha Hb Eu Ev [Huv Hne] Hab.
  assert (Hab' : a <> b) by congruence.
  pose proof (final_in_operators _ Ha) as Hao.
  pose proof (final_in_operators _ Hb) as Hbo.
  assert (Hp : precedes a b operators).
  { destruct (@precedes_total _ a b operators Hao Hbo Hab') as [Hp | Hp]; [exact Hp|].
    exfalso. apply precedes_In in Hp. destruct Hp as [l1 [l2 [E Hin]]].
    rewrite operators_parsed in E.
    destruct (sources_in_order urls_sorted _ _ _ E _ Hin)
      as [v' [u' [Ev' [Eu' Hle]]]].
    assert (v' = v) by congruence. assert (u' = u) by congruence. subst.
    apply codeUnitCompare_le in Hle. apply Hne. now apply leb_antisym. }
  unfold final, finalize in *.
  apply sortWith_stable; [|exact Hab].
  apply byName_values_order; [apply operators_NoDup | | | exact Hp].
  - now apply sortWith_In in Ha.
  - now apply sortWith_In in Hb.
Qed.

Lemma ties_keep_url_order_witness :
  precedes (@pageRecord Fixture.wiki Fixture.exusiai Fixture.urlExusiai)
           (@pageRecord Fixture.wiki Fixture.texas Fixture.urlTexas)
           (@final Fixture.wiki).
Proof.
  apply (@ties_keep_url_order Fixture.wiki _ _ Fixture.urlExusiai Fixture.urlTexas).
  - vm_compute. left. reflexivity.
  - vm_compute. right. left. reflexivity.
  - reflexivity.
  - reflexivity.
  - split; [reflexivity | vm_compute; discriminate].
  - vm_compute. discriminate.
Defined.

Lemma tidy_normal_form_witness :
  exists r,
    Page.tidy (JString (js "  Reunion   Movement ")) = JString r /\
    JsString.includes (js "  ") r = false.
Proof.
  destruct (proj2 tidy_normal_form (js "  Reunion   Movement "))
    as [r [E [_ [_ Hd]]]].
  exists r. split; [exact E | exact Hd].
Defined.

(* ================================================================== *)
(** ** The file that is written                                        *)
(* ================================================================== *)

Lemma final_rarity `{Platform} (o : OperatorRecord) :
  In o final ->
  (exists x, x <> Finite 0 /\ rarity o = JNumber x) \/ rarity o = JString [].
Proof.
  intros Ho. apply final_in_operators, operators_origin in Ho.
  destruct Ho as [u [_ [_ Hp]]]. unfold parsed in Hp.
  destruct (parseOperatorPage_cases u) as [[doc [_ Ep]] | [m [_ Ep]]];
    rewrite Ep in Hp; simpl in Hp; [|discriminate].
  injection Hp as <-. apply rarityOf_cases.
Qed.

(** X20.  In the file that is written every record has its eight text
    members, and the two members of release and of image, as JSON
    strings.  Its rarity member is a JSON number other than zero, the
    empty string, or [null]; it is [null] exactly when the rarity of
    the record is [Infinity]. *)
Theorem written_record_shape `{Platform} (o : OperatorRecord) :
  In o final ->
  (forall key,
     In key ["name"; "gender"; "class"; "archetype"; "faction"; "race";
             "region"; "source"]%string ->
     exists s, jsonField key (recordJson o) = Some (JsonString s)) /\
  (exists d e,
     jsonField "release" (recordJson o)
     = Some (JsonObject [(js "date_global", JsonString d);
                         (js "event_name", JsonString e)])) /\
  (exists p f,
     jsonField "image" (recordJson o)
     = Some (JsonObject [(js "portrait", JsonString p);
                         (js "full", JsonString f)])) /\
  ((exists n, n <> 0%N /\
              jsonField "rarity" (recordJson o) = Some (JsonNumber n)) \/
   jsonField "rarity" (recordJson o) = Some (JsonString []) \/
   jsonField "rarity" (recordJson o) = Some JsonNull) /\
  (jsonField "rarity" (recordJson o) = Some JsonNull <->
   rarity o = JNumber Infinity).
Proof.
  intros Ho.
  pose proof (final_wellFormed o Ho) as Hw.
  pose proof (final_rarity o Ho) as Hr.
  destruct o as [n g r c a f ra re [d e] [p fu] src].
  unfold wellFormed in Hw. simpl in Hw, Hr.
  destruct Hw as
    [[x Hn] [[x0 Hg] [[x1 Hc] [[x2 Ha] [[x3 Hf] [[x4 Hra] [[x5 Hre] [_ [[x6
     Hd] [[x7 He] [[x8 Hp] [[x9 Hfu] [x10 Hsrc]]]]]]]]]]]]].
  subst.
  assert (Hkeys : forall key,
    In key ["name"; "gender"; "class"; "archetype"; "faction"; "race";
            "region"; "source"]%string ->
    forall rar : jsval, (exists j, jsonValue rar = Some j) ->
    exists s,
      jsonField key
        (recordJson (mkOperator (JString x) (JString x0) rar (JString x1)
                       (JString x2) (JString x3) (JString x4) (JString x5)
                       (mkRelease (JString x6) (JString x7))
                       (mkImage (JString x8) (JString x9)) (JString x10)))
      = Some (JsonString s)).
  { intros key Hkey rar [j Hj]. unfold recordJson, jsonMember. simpl.
    rewrite Hj. simpl in Hkey.
    repeat (destruct Hkey as [<- | Hkey]; [eexists; reflexivity|]).
    destruct Hkey. }
  destruct Hr as [[x' [Hx ->]] | ->].
  - destruct x' as [k|].
    + split; [intros key Hkey; apply Hkeys; [exact Hkey | eexists; reflexivity]|].
      split; [eexists; eexists; reflexivity|].
      split; [eexists; eexists; reflexivity|].
      split; [left; exists k; split; [congruence | reflexivity]|].
      split; [discriminate | discriminate].
    + split; [intros key Hkey; apply Hkeys; [exact Hkey | eexists; reflexivity]|].
      split; [eexists; eexists; reflexivity|].
      split; [eexists; eexists; reflexivity|].
      split; [right; right; reflexivity|].
      split; reflexivity.
  - split; [intros key Hkey; apply Hkeys; [exact Hkey | eexists; reflexivity]|].
    split; [eexists; eexists; reflexivity|].
    split; [eexists; eexists; reflexivity|].
    split; [right; left; reflexivity|].
    split; discriminate.
Qed.

Lemma written_record_shape_witness :
  jsonField "rarity"
    (recordJson (@pageRecord Fixture.wikiOverflow Fixture.overflow
                   Fixture.urlTexas))
  = Some JsonNull.
Proof.
  apply (proj2 (proj2 (proj2 (proj2
           (@written_record_shape Fixture.wikiOverflow _
              (or_intror (or_introl eq_refl))))))).
  vm_compute. reflexivity.
Defined.
